(** * Truth-table generator: a shallow embedding of [truth_table_generator.py]

    The development follows the source file function by function:
    the string helpers it calls ([str.strip], [str.replace], [re.findall],
    [sorted], [set]), then [parse_boolean_expression], [generate_truth_table],
    [create_docx_table] and [main].  The symbolic engine (sympy) and the
    Unicode word-character table of [re] are external to the program and are
    kept abstract; a small Boolean engine instantiates the former for the
    end-to-end scenarios. *)

From Stdlib Require Import ZArith NArith Ascii.
From stdpp Require Import base numbers list gmap sorting strings pretty.

Local Open Scope N_scope.

(** ** Python strings

    A Python [str] is a sequence of Unicode code points. *)

Abbreviation str := (list N).

(** An ASCII literal as a [str]. *)
Definition py (s : string) : str := N_of_ascii <$> String.list_ascii_of_string s.

Definition NOT_SIGN : N := 172.      (* U+00AC, the NOT symbol *)
Definition LOGICAL_OR : N := 8744.   (* U+2228, the OR symbol *)
Definition NUMERO_SIGN : N := 8470.  (* U+2116, the index column label *)

(** [str(i)] for a Python [int]. *)
Definition str_of_int (i : Z) : str := py (pretty i).

Definition in_range (lo hi c : N) : bool := (lo <=? c) && (c <=? hi).

(** [str.isspace] on one code point (the table of CPython's
    [_PyUnicode_IsWhitespace]). *)
Definition isspace (c : N) : bool :=
  in_range 9 13 c || in_range 28 32 c || (c =? 133) || (c =? 160)
  || (c =? 5760) || in_range 8192 8202 c || (c =? 8232) || (c =? 8233)
  || (c =? 8239) || (c =? 8287) || (c =? 12288).

Fixpoint drop_while {A} (p : A → bool) (l : list A) : list A :=
  match l with
  | [] => []
  | x :: l' => if p x then drop_while p l' else l
  end.

Fixpoint take_while {A} (p : A → bool) (l : list A) : list A :=
  match l with
  | [] => []
  | x :: l' => if p x then x :: take_while p l' else []
  end.

Definition lstrip (s : str) : str := drop_while isspace s.
Definition rstrip (s : str) : str := reverse (drop_while isspace (reverse s)).
(** [s.strip()] *)
Definition strip (s : str) : str := rstrip (lstrip s).

(** [s.replace(old, new)]: every non-overlapping occurrence of [old], found
    left to right.  [skip] counts the characters of an occurrence that are
    still to be passed over. *)
Fixpoint replace_from (old new : str) (skip : nat) (s : str) : str :=
  match s with
  | [] => []
  | c :: rest =>
      match skip with
      | S k => replace_from old new k rest
      | O =>
          if bool_decide (old `prefix_of` s)
          then new ++ replace_from old new (pred (length old)) rest
          else c :: replace_from old new 0%nat rest
      end
  end.

Definition replace (old new : str) (s : str) : str :=
  match old with
  | [] => new ++ mjoin ((λ c, c :: new) <$> s)
  | _ => replace_from old new 0%nat s
  end.

(** ** The regular expression [\b[A-Za-z_][A-Za-z0-9_]*\b] *)

Definition ident_start (c : N) : bool :=
  in_range 65 90 c || in_range 97 122 c || (c =? 95).
Definition ident_char (c : N) : bool :=
  ident_start c || in_range 48 57 c.

(** The scan of [re.findall] for a pattern that matches at least one
    character and whose match attempt at a position is [matcher prev s],
    [prev] being the character before the position and [s] the text from it
    on: a match is attempted at every position that is not inside the
    previous match. *)
Fixpoint findall_from (matcher : option N → str → option str)
    (skip : nat) (prev : option N) (s : str) : list str :=
  match s with
  | [] => []
  | c :: rest =>
      match skip with
      | S k => findall_from matcher k (Some c) rest
      | O =>
          match matcher prev s with
          | Some tok => tok :: findall_from matcher (pred (length tok)) (Some c) rest
          | None => findall_from matcher 0%nat (Some c) rest
          end
      end
  end.

Section Regex.
(** [\w] on the code points beyond ASCII: the Unicode alphanumerics, a
    table of the interpreter. *)
Variable unicode_word : N → bool.

(** [\w] for a [str] pattern. *)
Definition is_word (c : N) : bool :=
  if c <? 128 then ident_char c else unicode_word c.

Definition word_at (o : option N) : bool := from_option is_word false o.

(** [\b] between the character before and the character after a position;
    the ends of the string count as non-word. *)
Definition word_boundary (prev next : option N) : bool :=
  xorb (word_at prev) (word_at next).

(** The greedy [[A-Za-z0-9_]*] followed by [\b]: the longest repetition is
    tried first, then the engine backtracks over shorter ones. [k] is the
    number of characters of [rest] given to the star. *)
Fixpoint backtrack_star (c0 : N) (rest : str) (k : nat) : option nat :=
  if word_boundary (last (c0 :: take k rest)) (rest !! k) then Some k
  else match k with
       | O => None
       | S k' => backtrack_star c0 rest k'
       end.

(** A match attempt anchored at the head of [s]; [prev] is the character
    just before it. *)
Definition match_at (prev : option N) (s : str) : option str :=
  match s with
  | [] => None
  | c0 :: rest =>
      if word_boundary prev (Some c0) && ident_start c0 then
        k ← backtrack_star c0 rest (length (take_while ident_char rest));
        Some (c0 :: take k rest)
      else None
  end.

(** [re.findall] with the pattern of the program. *)
Definition findall (s : str) : list str := findall_from match_at 0%nat None s.
End Regex.

(** ** [sorted] on strings: code-point lexicographic order *)

Fixpoint str_leb (a b : str) : bool :=
  match a, b with
  | [], _ => true
  | _ :: _, [] => false
  | x :: a', y :: b' => (x <? y) || ((x =? y) && str_leb a' b')
  end.

Definition str_le (a b : str) : Prop := str_leb a b = true.

Global Instance str_le_dec : RelDecision str_le.
Proof. intros a b. unfold str_le. apply _. Defined.

Definition sorted (l : list str) : list str := merge_sort str_le l.

(** [sorted(set(l))] *)
Definition sorted_set (l : list str) : list str :=
  sorted (elements (list_to_set l : gset str)).

(** ** Exceptions and results *)

Inductive exn_kind :=
  | ValueError | TypeError | SyntaxError | NameError | IndexError
  | EOFError | OSError | SympifyError | NotModelled.

(** An exception object; [exn_msg] is what [str(e)] gives. *)
Record exn := Exn { exn_kind_of : exn_kind; exn_msg : str }.

Inductive result (A : Type) :=
  | Ok (a : A)
  | Raise (e : exn).
Arguments Ok {A} a.
Arguments Raise {A} e.

Global Instance result_ret : MRet result := @Ok.
Global Instance result_bind : MBind result := λ A B f m,
  match m with Ok a => f a | Raise e => Raise e end.
Global Instance result_fmap : FMap result := λ A B f m,
  match m with Ok a => Ok (f a) | Raise e => Raise e end.

(** [try: body  except Exception as e: handler e] *)
Definition try_except {A} (body : result A) (handler : exn → result A) : result A :=
  match body with Ok a => Ok a | Raise e => handler e end.

Global Instance exn_kind_eq_dec : EqDecision exn_kind.
Proof. solve_decision. Defined.

(** [isinstance(e, ValueError)]: sympy's [SympifyError] derives from
    [ValueError]. *)
Definition is_ValueError (e : exn) : bool :=
  match exn_kind_of e with
  | ValueError | SympifyError => true
  | _ => false
  end.

(** ** The symbolic engine

    [sympy.Symbol] objects without assumptions are determined by their name. *)
Record Symbol := Sym { symbol_name : str }.

Global Instance Symbol_eq_dec : EqDecision Symbol.
Proof. solve_decision. Defined.
Global Instance Symbol_countable : Countable Symbol :=
  inj_countable' symbol_name Sym (λ x, match x with Sym _ => eq_refl end).

(** [symbols(names)] on a list of plain identifiers: one symbol per name. *)
Definition symbols (names : list str) : list Symbol := Sym <$> names.

(** What the program asks of sympy: [sympify(text, locals=...)],
    [expr.subs(values)] and the truth value [bool(expr)]. Each may raise. *)
Class Engine := {
  Expr : Type;
  sympify : str → gmap str Symbol → result Expr;
  subs : Expr → gmap Symbol Z → result Expr;
  truth : Expr → result bool;
}.

(** ** [parse_boolean_expression] *)

Definition NEWLINE : N := 10.

Definition msg_empty : str := py "Expression cannot be empty.".
Definition msg_no_variables : str :=
  py "No valid variables found in expression (expected names like x1, x_2, F).".
Definition msg_invalid (expr_input reason : str) : str :=
  py "Invalid Boolean expression: '" ++ expr_input ++ py "'." ++ [NEWLINE]
  ++ py "Error: " ++ reason.

(** The chain of [replace] calls on the user's symbols. *)
Definition substitute_symbols (expr_input : str) : str :=
  replace [LOGICAL_OR] (py "|")
    (replace (py "+") (py "|")
      (replace (py "^") (py "&")
        (replace (py "*") (py "&")
          (replace [NOT_SIGN] (py "~") expr_input)))).

(** [{str(v): v for v in variables}]: later entries overwrite earlier ones. *)
Definition var_dict_of (variables : list Symbol) : gmap str Symbol :=
  foldl (λ d v, <[symbol_name v := v]> d) ∅ variables.

Section Program.
Variable unicode_word : N → bool.
Context {engine : Engine}.

(** [sorted(set(re.findall(pattern, expr_str)))] *)
Definition extract_variables (expr_str : str) : list str :=
  sorted_set (findall unicode_word expr_str).

Definition parse_boolean_expression (expr_input : str)
  : result (Expr * list Symbol * list str) :=
  let expr_input := strip expr_input in
  if bool_decide (expr_input = []) then Raise (Exn ValueError msg_empty)
  else
    try_except
      (let expr_str := substitute_symbols expr_input in
       let vars_names := extract_variables expr_str in
       if bool_decide (vars_names = []) then Raise (Exn ValueError msg_no_variables)
       else
         let variables := symbols vars_names in
         let var_dict := var_dict_of variables in
         sympy_expr ← sympify expr_str var_dict;
         Ok (sympy_expr, variables, vars_names))
      (λ e, Raise (Exn ValueError (msg_invalid expr_input (exn_msg e)))).

(** ** [generate_truth_table] *)

(** [itertools.product] over a list of pools: the rightmost position varies fastest. *)
Fixpoint product {A} (pools : list (list A)) : list (list A) :=
  match pools with
  | [] => [[]]
  | pool :: pools' => x ← pool; (λ t, x :: t) <$> product pools'
  end.

Definition enumerate {A} (l : list A) : list (nat * A) := imap pair l.

(** [{variables[j]: values[j] for j in range(len(variables))}]; [values] is a
    tuple of [product] and has the length of [variables]. *)
Definition val_dict_of (variables : list Symbol) (values : list Z) : gmap Symbol Z :=
  foldl (λ d kv, <[kv.1 := kv.2]> d) ∅ (zip variables values).

(** [int(b)] for a [bool]. *)
Definition int_of_bool (b : bool) : Z := if b then 1%Z else 0%Z.

(** The body of the loop for one [(i, values)]. *)
Definition table_row (sympy_expr : Expr) (variables : list Symbol)
    (i : nat) (values : list Z) : result (list str) :=
  let val_dict := val_dict_of variables values in
  substituted ← subs sympy_expr val_dict;
  b ← truth substituted;
  let func_val := int_of_bool b in
  Ok ([str_of_int (Z.of_nat i)] ++ (str_of_int <$> values) ++ [str_of_int func_val]).

(** The [for] loop, with [rows_data] threaded through. *)
Fixpoint table_loop (sympy_expr : Expr) (variables : list Symbol)
    (items : list (nat * list Z)) (rows_data : list (list str))
  : result (list (list str)) :=
  match items with
  | [] => Ok rows_data
  | (i, values) :: items' =>
      row ← table_row sympy_expr variables i values;
      table_loop sympy_expr variables items' (rows_data ++ [row])
  end.

Definition generate_truth_table (sympy_expr : Expr) (variables : list Symbol)
  : result (list (list str)) :=
  table_loop sympy_expr variables
    (enumerate (product (replicate (length variables) [0%Z; 1%Z]))) [].

End Program.

(** ** The document (python-docx) *)

Inductive alignment := CENTER.

Record Run := {
  run_text : str;
  run_font_name : option str;
  run_font_size : option Z;   (* points *)
}.

Record Paragraph := {
  paragraph_runs : list Run;
  paragraph_alignment : option alignment;
}.

(** A table cell: its paragraphs and the [w:vAlign] children of its
    properties element. *)
Record Cell := {
  cell_paragraphs : list Paragraph;
  cell_vAlign : list str;
}.

Record Border := {
  border_name : str;
  border_val : str;
  border_sz : str;
  border_space : str;
  border_color : str;
}.

Record Table := {
  table_rows : list (list Cell);
  table_borders : list Border;
}.

Inductive Block :=
  | BlockParagraph (p : Paragraph)
  | BlockTable (t : Table).

(** The body of a document, top to bottom. *)
Abbreviation Document := (list Block).

Definition paragraph_text (p : Paragraph) : str :=
  mjoin (run_text <$> paragraph_runs p).

Fixpoint join_lines (l : list str) : str :=
  match l with
  | [] => []
  | [s] => s
  | s :: l' => s ++ [NEWLINE] ++ join_lines l'
  end.

(** [cell.text] read back. *)
Definition cell_text (c : Cell) : str :=
  join_lines (paragraph_text <$> cell_paragraphs c).

(** A cell of a fresh table: one empty paragraph. *)
Definition empty_cell : Cell :=
  {| cell_paragraphs := [ {| paragraph_runs := []; paragraph_alignment := None |} ];
     cell_vAlign := [] |}.

(** [doc.add_table(rows, cols)] *)
Definition add_table (rows cols : nat) : Table :=
  {| table_rows := replicate rows (replicate cols empty_cell);
     table_borders := [] |}.

Definition TIMES_NEW_ROMAN : str := py "Times New Roman".

Definition set_font (r : Run) : Run :=
  {| run_text := run_text r;
     run_font_name := Some TIMES_NEW_ROMAN;
     run_font_size := Some 12%Z |}.

(** The helper [set_cell_center(cell, text)]: assigning [cell.text] leaves one
    paragraph with one run; the paragraph is centred, its runs get the font,
    and a vertical alignment is appended to the cell properties. *)
Definition set_cell_center (cell : Cell) (text : str) : Cell :=
  let paragraphs :=
    [ {| paragraph_runs := [ {| run_text := text; run_font_name := None;
                                run_font_size := None |} ];
         paragraph_alignment := None |} ] in
  {| cell_paragraphs :=
       (λ p, {| paragraph_runs := set_font <$> paragraph_runs p;
                paragraph_alignment := Some CENTER |}) <$> paragraphs;
     cell_vAlign := cell_vAlign cell ++ [py "center"] |}.

Definition index_error : exn := Exn IndexError (py "tuple index out of range").

(** [set_cell_center(table.rows[r].cells[c], text)]; indexing past the grid
    raises [IndexError]. *)
Definition set_table_cell (t : Table) (r c : nat) (text : str) : result Table :=
  match table_rows t !! r with
  | None => Raise index_error
  | Some row =>
      match row !! c with
      | None => Raise index_error
      | Some cell =>
          Ok {| table_rows := <[r := <[c := set_cell_center cell text]> row]> (table_rows t);
                table_borders := table_borders t |}
      end
  end.

(** A [for] loop whose body may raise, threading the loop state. *)
Fixpoint for_each {A S} (l : list A) (body : S → A → result S) (s : S) : result S :=
  match l with
  | [] => Ok s
  | x :: l' => s' ← body s x; for_each l' body s'
  end.

Definition border_of (name : str) : Border :=
  {| border_name := name; border_val := py "single"; border_sz := py "4";
     border_space := py "0"; border_color := py "000000" |}.

Definition border_names : list str :=
  [py "top"; py "left"; py "bottom"; py "right"; py "insideH"; py "insideV"].

(** ** The world the program runs in *)

Record World := {
  stdout : list str;               (* what was written, oldest first *)
  files : gmap str Document;       (* saved documents by path *)
  writable : str → bool;           (* whether a path can be written *)
}.

Definition write (w : World) (s : str) : World :=
  {| stdout := stdout w ++ [s]; files := files w; writable := writable w |}.

(** [print(s)] *)
Definition print (w : World) (s : str) : World := write w (s ++ [NEWLINE]).

(** [doc.save(path)] *)
Definition save (doc : Document) (path : str) (w : World) : result World :=
  if writable w path then
    Ok {| stdout := stdout w; files := <[path := doc]> (files w); writable := writable w |}
  else Raise (Exn OSError (py "cannot write " ++ path)).

Definition caption_prefix : str := py "Boolean function: ".

(** ** [create_docx_table] *)
Definition create_docx_table (rows_data : list (list str)) (vars_names : list str)
    (user_expression : str) (output_file : str) (w : World) : result World :=
  let para :=
    {| paragraph_runs :=
         [ {| run_text := caption_prefix ++ user_expression;
              run_font_name := Some TIMES_NEW_ROMAN;
              run_font_size := Some 12%Z |} ];
       paragraph_alignment := Some CENTER |} in
  let cols := (length vars_names + 2)%nat in
  let table := add_table (length rows_data + 1) cols in
  (* header row; [hdr_cells[-1]] is the last cell *)
  table ← set_table_cell table 0 0 [NUMERO_SIGN];
  table ← for_each (enumerate vars_names)
             (λ table '(j, name), set_table_cell table 0 (j + 1) name) table;
  table ← set_table_cell table 0 (pred cols) (py "f");
  (* data rows *)
  table ← for_each (enumerate rows_data)
             (λ table '(i, row),
                for_each (enumerate row)
                  (λ table '(j, val), set_table_cell table (i + 1) j val) table)
             table;
  let table := {| table_rows := table_rows table;
                  table_borders := table_borders table ++ (border_of <$> border_names) |} in
  let doc := [BlockParagraph para; BlockTable table] in
  w ← save doc output_file w;
  Ok (print w (py "Truth table saved to " ++ output_file)).

Definition default_output : str := py "truth_table.docx".

(** ** [main] *)

Definition prompt : str :=
  py "Enter Boolean expression (e.g., " ++
  [NOT_SIGN] ++ py "(F*" ++ [NOT_SIGN] ++ py "G)+" ++ [NOT_SIGN] ++
  py "(C+D)+E+F*G*" ++ [NOT_SIGN] ++ py "H): ".

Definition msg_empty_retry : str :=
  py "Error: Expression cannot be empty. Please try again." ++ [NEWLINE].
Definition msg_retry (reason : str) : str :=
  py "Error: " ++ reason ++ [NEWLINE] ++ py "Please try again." ++ [NEWLINE].

Definition eof_error : exn := Exn EOFError (py "EOF when reading a line").

Section Main.
Variable unicode_word : N → bool.
Context {engine : Engine}.

(** The [while True] loop over the lines typed by the user; [input] raises
    [EOFError] when they run out. *)
Fixpoint input_loop (lines : list str) (w : World)
  : World * result (str * (Expr * list Symbol * list str)) :=
  let w := write w prompt in
  match lines with
  | [] => (w, Raise eof_error)
  | line :: lines' =>
      let user_input := strip line in
      if bool_decide (user_input = []) then
        input_loop lines' (print w msg_empty_retry)
      else
        match parse_boolean_expression unicode_word user_input with
        | Ok parsed => (w, Ok (user_input, parsed))
        | Raise e =>
            if is_ValueError e
            then input_loop lines' (print w (msg_retry (exn_msg e)))
            else (w, Raise e)
        end
  end.

Definition main (lines : list str) (w : World) : World * result () :=
  let '(w, r) := input_loop lines w in
  match r with
  | Raise e => (w, Raise e)
  | Ok (user_input, (expr, variables, vars_names)) =>
      match generate_truth_table expr variables with
      | Raise e => (w, Raise e)
      | Ok rows_data =>
          match create_docx_table rows_data vars_names user_input default_output w with
          | Raise e => (w, Raise e)
          | Ok w' => (w', Ok ())
          end
      end
  end.

End Main.

(** ** A Boolean engine

    The engine behind [sympify], [subs] and the truth value is sympy, an
    external collaborator whose code is not part of the source file. The
    module below instantiates [Engine] for the end-to-end scenarios. *)
Module Boolean.

Inductive BExpr :=
  | BConst (b : bool)
  | BVar (x : Symbol)
  | BNot (e : BExpr)
  | BAnd (l r : BExpr)
  | BOr (l r : BExpr).

Inductive token :=
  | TName (name : str)
  | TInvert | TAmp | TBar | TLParen | TRParen.

Definition not_modelled : exn := Exn NotModelled (py "outside the Boolean fragment").
Definition parse_error : exn := Exn SympifyError (py "could not parse the expression").

Definition python_keywords : list str :=
  py <$> ["False"; "None"; "True"; "and"; "as"; "assert"; "async"; "await";
          "break"; "class"; "continue"; "def"; "del"; "elif"; "else"; "except";
          "finally"; "for"; "from"; "global"; "if"; "import"; "in"; "is";
          "lambda"; "nonlocal"; "not"; "or"; "pass"; "raise"; "return"; "try";
          "while"; "with"; "yield"].

Definition punctuation (c : N) : option token :=
  if c =? 126 then Some TInvert
  else if c =? 38 then Some TAmp
  else if c =? 124 then Some TBar
  else if c =? 40 then Some TLParen
  else if c =? 41 then Some TRParen
  else None.

(** Closes the name read so far, if any, in front of the tokens [ts]. *)
Definition end_name (pending : str) (ts : list token) : result (list token) :=
  if bool_decide (pending = []) then Ok ts
  else if bool_decide (pending ∈ python_keywords) then Raise not_modelled
  else Ok (TName pending :: ts).

Fixpoint tokenize (pending : str) (s : str) : result (list token) :=
  match s with
  | [] => end_name pending []
  | c :: rest =>
      if ident_char c then
        if bool_decide (pending = []) && negb (ident_start c)
        then Raise not_modelled
        else tokenize (pending ++ [c]) rest
      else if (c =? 32) || (c =? 9) then
        ts ← tokenize [] rest; end_name pending ts
      else
        match punctuation c with
        | Some t => ts ← tokenize [] rest; end_name pending (t :: ts)
        | None => Raise not_modelled
        end
  end.

(** The nonterminals of the recursive descent; the [Rest] goals carry the
    left operand built so far. *)
Inductive goal :=
  | GOr | GOrRest (l : BExpr)
  | GAnd | GAndRest (l : BExpr)
  | GFactor.

Fixpoint parse (locals : gmap str Symbol) (fuel : nat) (g : goal) (ts : list token)
  : result (BExpr * list token) :=
  match fuel with
  | O => Raise not_modelled
  | S fuel =>
      match g with
      | GOr =>
          '(l, ts) ← parse locals fuel GAnd ts;
          parse locals fuel (GOrRest l) ts
      | GOrRest l =>
          match ts with
          | TBar :: ts =>
              '(r, ts) ← parse locals fuel GAnd ts;
              parse locals fuel (GOrRest (BOr l r)) ts
          | _ => Ok (l, ts)
          end
      | GAnd =>
          '(l, ts) ← parse locals fuel GFactor ts;
          parse locals fuel (GAndRest l) ts
      | GAndRest l =>
          match ts with
          | TAmp :: ts =>
              '(r, ts) ← parse locals fuel GFactor ts;
              parse locals fuel (GAndRest (BAnd l r)) ts
          | _ => Ok (l, ts)
          end
      | GFactor =>
          match ts with
          | TInvert :: ts =>
              '(e, ts) ← parse locals fuel GFactor ts;
              Ok (BNot e, ts)
          | TName name :: ts =>
              match locals !! name with
              | Some v => Ok (BVar v, ts)
              | None => Raise not_modelled
              end
          | TLParen :: ts =>
              '(e, ts) ← parse locals fuel GOr ts;
              match ts with
              | TRParen :: ts => Ok (e, ts)
              | _ => Raise parse_error
              end
          | _ => Raise parse_error
          end
      end
  end.

(** Modelled from the spec: [sympify] of sympy, which is not in the source
    file. The spec has it compile the substituted string against the
    extracted identifiers as named leaves, with the precedence
    NOT > AND > OR, left to right among equals, parentheses overriding, and
    fail on malformed syntax. *)
Definition b_sympify (text : str) (locals : gmap str Symbol) : result BExpr :=
  ts ← tokenize [] text;
  '(e, ts') ← parse locals (4 * length ts + 4) GOr ts;
  if bool_decide (ts' = []) then Ok e else Raise parse_error.

(** The value of an expression once every symbol has a 0/1 value. *)
Fixpoint value (d : gmap Symbol Z) (e : BExpr) : result bool :=
  match e with
  | BConst b => Ok b
  | BVar x =>
      match d !! x with
      | Some 0%Z => Ok false
      | Some 1%Z => Ok true
      | _ => Raise not_modelled
      end
  | BNot e => negb <$> value d e
  | BAnd l r => a ← value d l; b ← value d r; Ok (a && b)
  | BOr l r => a ← value d l; b ← value d r; Ok (a || b)
  end.

(** The symbols that occur in an expression. *)
Fixpoint free_symbols (e : BExpr) : list Symbol :=
  match e with
  | BConst _ => []
  | BVar x => [x]
  | BNot e => free_symbols e
  | BAnd l r | BOr l r => free_symbols l ++ free_symbols r
  end.

(** Modelled from the spec: [expr.subs(values)] of sympy, which is not in
    the source file; the spec has it put the 0/1 values of a row in place of
    the variables and reduce. *)
Definition b_subs (e : BExpr) (d : gmap Symbol Z) : result BExpr :=
  BConst <$> value d e.

(** Modelled from the spec: the truth value [bool(expr)] of a reduced
    expression. *)
Definition b_truth (e : BExpr) : result bool :=
  match e with
  | BConst b => Ok b
  | _ => Raise not_modelled
  end.

(** Modelled from the spec: the Boolean-expression parsing and evaluation
    engine (sympy), which is not in the source file. The instance covers the
    canonical logical syntax the spec describes: names, [~], [&], [|],
    parentheses and blanks, names being looked up in [locals]. Whatever lies
    outside that fragment (numbers, other operators, Python keywords,
    symbols left without a 0/1 value) is reported as [NotModelled]. *)
Definition engine : Engine :=
  {| Expr := BExpr; sympify := b_sympify; subs := b_subs; truth := b_truth |}.

End Boolean.

(** * Notions used to state the properties *)

Local Open Scope nat_scope.

(** Bit [k] (counted from the least significant) of the row index [i]. *)
Definition bit_of (i k : nat) : Z := Z.b2z (Z.testbit (Z.of_nat i) (Z.of_nat k)).

(** The [n]-bit binary representation of [i], most significant bit first. *)
Definition binary_digits (n i : nat) : list Z :=
  (λ k, bit_of i (n - 1 - k)) <$> seq 0 n.

(** The expression evaluates under each of the enumerated assignments. *)
Definition evaluates {engine : Engine} (sympy_expr : Expr) (variables : list Symbol) : Prop :=
  ∀ values, values ∈ product (replicate (length variables) [0%Z; 1%Z]) →
    ∃ substituted b,
      subs sympy_expr (val_dict_of variables values) = Ok substituted
      ∧ truth substituted = Ok b.

(** Sample symbols and expressions of the Boolean engine. *)
Definition sym_A : Symbol := Sym (py "A").
Definition sym_B : Symbol := Sym (py "B").
Definition sym_C : Symbol := Sym (py "C").
Definition A_and_B : Boolean.BExpr :=
  Boolean.BAnd (Boolean.BVar sym_A) (Boolean.BVar sym_B).
Definition not_A_or_B : Boolean.BExpr :=
  Boolean.BOr (Boolean.BNot (Boolean.BVar sym_A)) (Boolean.BVar sym_B).
Definition A_and_B_and_C : Boolean.BExpr :=
  Boolean.BAnd A_and_B (Boolean.BVar sym_C).

(** [\w] restricted to ASCII, for concrete runs. *)
Definition ascii_only : N → bool := λ _, false.

(** The symbol mapping, one character at a time: NOT to [~], [*] and [^] to
    [&], [+] and OR to [|]. *)
Definition translate_char (c : N) : N :=
  if (c =? NOT_SIGN)%N then 126%N
  else if ((c =? 42) || (c =? 94))%N then 38%N
  else if ((c =? 43) || (c =? LOGICAL_OR))%N then 124%N
  else c.

(** Whether a text is, as a whole, of the form [[A-Za-z_][A-Za-z0-9_]*]. *)
Definition is_identifier (t : str) : bool :=
  match t with
  | [] => false
  | c :: r => ident_start c && forallb ident_char r
  end.

Definition flush_run (cur : str) : list str :=
  if bool_decide (cur = []) then [] else [cur].

(** The maximal runs of word characters of a text, left to right; [cur] is
    the run being read. *)
Fixpoint word_runs_from (unicode_word : N → bool) (cur : str) (s : str) : list str :=
  match s with
  | [] => flush_run cur
  | c :: rest =>
      if is_word unicode_word c then word_runs_from unicode_word (cur ++ [c]) rest
      else flush_run cur ++ word_runs_from unicode_word [] rest
  end.

Definition word_runs (unicode_word : N → bool) (s : str) : list str :=
  word_runs_from unicode_word [] s.

(** The pattern [[A-Za-z_][A-Za-z0-9_]*] on its own, without the word
    boundaries: a match attempt at the head of [s]. *)
Definition match_identifier (prev : option N) (s : str) : option str :=
  match s with
  | [] => None
  | c0 :: rest =>
      if ident_start c0 then Some (c0 :: take_while ident_char rest) else None
  end.

(** Every maximal token matching [[A-Za-z_][A-Za-z0-9_]*], left to right. *)
Definition maximal_tokens (s : str) : list str :=
  findall_from match_identifier 0 None s.

(** The caption: the paragraph at the top of the document. *)
Definition caption_of (doc : Document) : option str :=
  match doc with
  | BlockParagraph p :: _ => Some (paragraph_text p)
  | _ => None
  end.

(** The table under the caption. *)
Definition table_of (doc : Document) : option Table :=
  match doc with
  | [_; BlockTable t] => Some t
  | _ => None
  end.

(** The texts of the header row. *)
Definition header_texts (t : Table) : list str :=
  cell_text <$> default [] (table_rows t !! 0).

(** The cells of the header row as the renderer fills them. *)
Definition header_row (vars_names : list str) : list Cell :=
  set_cell_center empty_cell <$> ([NUMERO_SIGN] :: vars_names ++ [py "f"]).

(** What the data loops keep: the number of rows and the header row. *)
Definition keeps_header (t0 t : Table) : Prop :=
  length (table_rows t) = length (table_rows t0)
  ∧ table_rows t !! 0 = table_rows t0 !! 0.

(** [t] occurs in [s]. *)
Definition contains (t s : str) : Prop := ∃ a b, s = a ++ t ++ b.

Fixpoint contains_b (t s : str) : bool :=
  bool_decide (t `prefix_of` s)
  || match s with
     | [] => false
     | _ :: s' => contains_b t s'
     end.

(** A line the input loop turns down, and one it takes. *)
Definition rejected (unicode_word : N → bool) {engine : Engine} (line : str) : Prop :=
  ∃ err, parse_boolean_expression unicode_word (strip line) = Raise err.
Definition accepted (unicode_word : N → bool) {engine : Engine} (line : str) : Prop :=
  ∃ parsed, parse_boolean_expression unicode_word (strip line) = Ok parsed.

(** A world with nothing printed, no file, and every path writable. *)
Definition fresh_world : World :=
  {| stdout := []; files := ∅; writable := λ _, true |}.

(** ** Notions for the renderer and the run as a whole *)

(** A data row as the renderer leaves it: one filled cell per value, the
    cells to their right untouched. *)
Definition render_row (cols : nat) (vals : list str) : list Cell :=
  (set_cell_center empty_cell <$> vals)
  ++ replicate (cols - length vals) empty_cell.

(** The caption paragraph. *)
Definition caption_paragraph (user_expression : str) : Paragraph :=
  {| paragraph_runs :=
       [ {| run_text := caption_prefix ++ user_expression;
            run_font_name := Some TIMES_NEW_ROMAN;
            run_font_size := Some 12%Z |} ];
     paragraph_alignment := Some CENTER |}.

(** The table and the document a successful call of the renderer saves. *)
Definition rendered_table (rows_data : list (list str)) (vars_names : list str) : Table :=
  {| table_rows :=
       header_row vars_names
       :: (render_row (length vars_names + 2) <$> rows_data);
     table_borders := border_of <$> border_names |}.

Definition rendered_document (rows_data : list (list str)) (vars_names : list str)
    (user_expression : str) : Document :=
  [BlockParagraph (caption_paragraph user_expression);
   BlockTable (rendered_table rows_data vars_names)].

(** The texts of all cells of a table, row by row. *)
Definition table_texts (t : Table) : list (list str) :=
  (λ row : list Cell, cell_text <$> row) <$> table_rows t.

(** A cell that is centred both ways, once, and set in Times New Roman 12. *)
Definition formatted (c : Cell) : Prop :=
  cell_vAlign c = [py "center"]
  ∧ Forall (λ p, paragraph_alignment p = Some CENTER
                 ∧ Forall (λ r, run_font_name r = Some TIMES_NEW_ROMAN
                                ∧ run_font_size r = Some 12%Z)
                     (paragraph_runs p))
      (cell_paragraphs c).

(** What the input loop prints in answer to a line it turns down. *)
Definition reply (unicode_word : N → bool) {engine : Engine} (line : str) : str :=
  if bool_decide (strip line = []) then msg_empty_retry ++ [NEWLINE]
  else match parse_boolean_expression unicode_word (strip line) with
       | Raise e => msg_retry (exn_msg e) ++ [NEWLINE]
       | Ok _ => []
       end.

(** The confirmation printed after saving. *)
Definition msg_saved (output_file : str) : str :=
  py "Truth table saved to " ++ output_file ++ [NEWLINE].

(** The world after the input loop has turned down one line, and a
    sequence of lines: each costs a prompt and a reply. *)
Definition turn_down (unicode_word : N → bool) {engine : Engine}
    (w : World) (line : str) : World :=
  write (write w prompt) (reply unicode_word line).
Definition after_rejections (unicode_word : N → bool) {engine : Engine}
    (lines : list str) (w : World) : World :=
  foldl (turn_down unicode_word) w lines.

(** An engine for runs in which evaluation fails: every text parses to the
    same expression, whose substitution raises exactly when the variable [A]
    is given the value 1. *)
Definition evaluation_error : exn := Exn TypeError (py "cannot determine truth value").
Definition partial_engine : Engine :=
  {| Expr := unit;
     sympify := λ _ _, Ok ();
     subs := λ _ d, if bool_decide (d !! sym_A = Some 1%Z)
                    then Raise evaluation_error else Ok ();
     truth := λ _, Ok true |}.

(** * Properties *)

(** ** The enumeration of assignments *)

Lemma bit_of_spec i k : bit_of i k = ((Z.of_nat i / 2 ^ Z.of_nat k) mod 2)%Z.
Proof. unfold bit_of. apply Z.testbit_spec'. lia. Qed.

Lemma bit_of_range i k : bit_of i k = 0%Z ∨ bit_of i k = 1%Z.
Proof. unfold bit_of. destruct (Z.testbit _ _); auto. Qed.

Lemma pow2_of_nat n : Z.of_nat (2 ^ n) = (2 ^ Z.of_nat n)%Z.
Proof. rewrite Nat2Z.inj_pow. reflexivity. Qed.

Lemma bit_of_high i n : i < 2 ^ n → bit_of i n = 0%Z.
Proof.
  intros Hi. rewrite bit_of_spec, Z.div_small; [reflexivity|].
  rewrite <- pow2_of_nat. lia.
Qed.

Lemma bit_of_top i n : i < 2 ^ n → bit_of (2 ^ n + i) n = 1%Z.
Proof.
  intros Hi. rewrite bit_of_spec, Nat2Z.inj_add, pow2_of_nat.
  assert (0 < 2 ^ Z.of_nat n)%Z as Hpos by (apply Z.pow_pos_nonneg; lia).
  replace (2 ^ Z.of_nat n + Z.of_nat i)%Z
    with (Z.of_nat i + 1 * 2 ^ Z.of_nat n)%Z by lia.
  rewrite Z.div_add by lia. rewrite Z.div_small; [reflexivity|].
  rewrite <- pow2_of_nat. lia.
Qed.

Lemma bit_of_below i n k : k < n → bit_of (2 ^ n + i) k = bit_of i k.
Proof.
  intros Hk. rewrite !bit_of_spec, Nat2Z.inj_add, pow2_of_nat.
  replace (Z.of_nat n) with (Z.of_nat k + (Z.of_nat (n - k - 1) + 1))%Z by lia.
  rewrite Z.pow_add_r by lia.
  assert (0 < 2 ^ Z.of_nat k)%Z as Hpos by (apply Z.pow_pos_nonneg; lia).
  replace (2 ^ Z.of_nat k * 2 ^ (Z.of_nat (n - k - 1) + 1) + Z.of_nat i)%Z
    with (Z.of_nat i + 2 ^ (Z.of_nat (n - k - 1) + 1) * 2 ^ Z.of_nat k)%Z by lia.
  rewrite Z.div_add by lia.
  rewrite Z.pow_add_r by lia. change (2 ^ 1)%Z with 2%Z.
  apply Z_mod_plus_full.
Qed.

Lemma binary_digits_S n i :
  binary_digits (S n) i = bit_of i n :: ((λ k, bit_of i (n - 1 - k)) <$> seq 0 n).
Proof.
  unfold binary_digits. cbn [seq fmap list_fmap].
  f_equal; [f_equal; lia|].
  rewrite <- fmap_S_seq, <- list_fmap_compose.
  apply list_fmap_ext. intros ? k _. simpl. f_equal. lia.
Qed.

Lemma binary_digits_low n i :
  i < 2 ^ n → binary_digits (S n) i = 0%Z :: binary_digits n i.
Proof. intros Hi. rewrite binary_digits_S, bit_of_high by done. reflexivity. Qed.

Lemma binary_digits_high n i :
  i < 2 ^ n → binary_digits (S n) (2 ^ n + i) = 1%Z :: binary_digits n i.
Proof.
  intros Hi. rewrite binary_digits_S, bit_of_top by done. f_equal.
  apply list_fmap_ext. intros j k Hjk.
  apply lookup_seq in Hjk as [-> ?]. apply bit_of_below. lia.
Qed.

Lemma length_binary_digits n i : length (binary_digits n i) = n.
Proof. unfold binary_digits. by rewrite length_fmap, length_seq. Qed.


Lemma product_bits_S n :
  product (replicate (S n) [0%Z; 1%Z])
  = ((λ t, 0%Z :: t) <$> product (replicate n [0%Z; 1%Z]))
    ++ ((λ t, 1%Z :: t) <$> product (replicate n [0%Z; 1%Z])).
Proof. cbn. by rewrite app_nil_r. Qed.

Lemma length_product_bits n : length (product (replicate n [0%Z; 1%Z])) = 2 ^ n.
Proof.
  induction n as [|n IH]; [reflexivity|].
  rewrite product_bits_S, length_app, !length_fmap, IH. simpl. lia.
Qed.

(** Position [i] of the product holds the binary digits of [i]. *)
Lemma lookup_product_bits n i :
  i < 2 ^ n → product (replicate n [0%Z; 1%Z]) !! i = Some (binary_digits n i).
Proof.
  revert i. induction n as [|n IH]; intros i Hi.
  - simpl in Hi. by replace i with 0 by lia.
  - rewrite product_bits_S. destruct (decide (i < 2 ^ n)) as [Hlow|Hhigh].
    + rewrite lookup_app_l by (by rewrite length_fmap, length_product_bits).
      rewrite list_lookup_fmap, IH by done. simpl. by rewrite binary_digits_low.
    + rewrite lookup_app_r by (rewrite length_fmap, length_product_bits; lia).
      rewrite length_fmap, length_product_bits.
      assert (i - 2 ^ n < 2 ^ n) as Hlt by (simpl in Hi; lia).
      rewrite list_lookup_fmap, IH by done. simpl.
      rewrite <- binary_digits_high by done. do 3 f_equal. lia.
Qed.

(** ** Results and loops *)

Lemma bind_Ok {A B} (m : result A) (f : A → result B) b :
  m ≫= f = Ok b ↔ ∃ a, m = Ok a ∧ f a = Ok b.
Proof.
  destruct m as [a|e]; simpl; split.
  - intros Hf. by exists a.
  - by intros (a' & [= ->] & Hf).
  - intros [=].
  - by intros (a' & [=] & _).
Qed.

Lemma bind_Ok_l {A B} (a : A) (f : A → result B) : Ok a ≫= f = f a.
Proof. reflexivity. Qed.

Lemma lookup_enumerate {A} (l : list A) i :
  enumerate l !! i = (λ x, (i, x)) <$> l !! i.
Proof. unfold enumerate. apply list_lookup_imap. Qed.

Lemma length_enumerate {A} (l : list A) : length (enumerate l) = length l.
Proof. unfold enumerate. apply length_imap. Qed.

Section Enumerator.
Context {engine : Engine}.

Lemma table_row_Ok e variables i values row :
  table_row e variables i values = Ok row ↔
  ∃ substituted b,
    subs e (val_dict_of variables values) = Ok substituted
    ∧ truth substituted = Ok b
    ∧ row = [str_of_int (Z.of_nat i)] ++ (str_of_int <$> values)
            ++ [str_of_int (int_of_bool b)].
Proof.
  unfold table_row. rewrite bind_Ok. split.
  - intros (e' & He' & Hrest). apply bind_Ok in Hrest as (b & Hb & [= <-]).
    by exists e', b.
  - intros (e' & b & He' & Hb & ->). exists e'. split; [done|].
    apply bind_Ok. by exists b.
Qed.

(** The loop appends one row per item, in order. *)
Lemma table_loop_Ok e variables items acc rows :
  table_loop e variables items acc = Ok rows ↔
  ∃ new, rows = acc ++ new
    ∧ Forall2 (λ item row, table_row e variables item.1 item.2 = Ok row) items new.
Proof.
  revert acc. induction items as [|[i values] items IH]; intros acc; simpl.
  - split.
    + intros [= <-]. exists []. by rewrite app_nil_r.
    + intros (new & -> & Hall). apply Forall2_nil_inv_l in Hall as ->.
      by rewrite app_nil_r.
  - rewrite bind_Ok. split.
    + intros (row & Hrow & Hloop). apply IH in Hloop as (new & -> & Hall).
      exists (row :: new). rewrite <- app_assoc. split; [done|].
      by constructor.
    + intros (new & -> & Hall).
      apply Forall2_cons_inv_l in Hall as (row & new' & Hrow & Hall & ->).
      exists row. split; [done|]. apply IH. exists new'.
      by rewrite <- app_assoc.
Qed.

Lemma table_loop_total e variables items acc :
  Forall (λ item, ∃ row, table_row e variables item.1 item.2 = Ok row) items →
  ∃ rows, table_loop e variables items acc = Ok rows.
Proof.
  revert acc. induction items as [|[i values] items IH]; intros acc Hall; simpl.
  - by eexists.
  - apply Forall_cons in Hall as [[row Hrow] Hall]. simpl in Hrow.
    rewrite Hrow. simpl. by apply IH.
Qed.

(** What a returned table looks like: [2^N] rows, row [i] computed from the
    binary digits of [i]. *)
Lemma generate_truth_table_rows e variables rows :
  generate_truth_table e variables = Ok rows →
  length rows = 2 ^ length variables
  ∧ ∀ i, i < 2 ^ length variables →
      ∃ row, rows !! i = Some row
        ∧ table_row e variables i (binary_digits (length variables) i) = Ok row.
Proof.
  unfold generate_truth_table. intros Hgen.
  apply table_loop_Ok in Hgen as (new & -> & Hall). simpl.
  pose proof (Forall2_length _ _ _ Hall) as Hlen.
  rewrite length_enumerate, length_product_bits in Hlen.
  split; [done|]. intros i Hi.
  destruct (lookup_lt_is_Some_2 new i) as [row Hrow]; [lia|].
  exists row. split; [done|].
  eapply Forall2_lookup_r in Hall as ([j values] & Hitem & Hok); [|done].
  rewrite lookup_enumerate, lookup_product_bits in Hitem by done.
  by injection Hitem as <- <-.
Qed.

(** The table is returned whenever each evaluation succeeds. *)
Lemma generate_truth_table_total e variables :
  evaluates e variables → ∃ rows, generate_truth_table e variables = Ok rows.
Proof.
  intros Heval. apply table_loop_total.
  apply Forall_lookup. intros i [j values] Hitem. simpl.
  rewrite lookup_enumerate in Hitem.
  destruct (product _ !! i) as [values'|] eqn:Hv; [|done].
  injection Hitem as <- <-.
  destruct (Heval values') as (e' & b & He' & Hb).
  { by eapply list_elem_of_lookup_2. }
  eexists. apply table_row_Ok. by exists e', b.
Qed.

End Enumerator.

(** ** The order of [sorted] *)

Lemma str_leb_refl a : str_leb a a = true.
Proof.
  induction a as [|x a IH]; simpl; [done|].
  rewrite N.eqb_refl, IH. by rewrite orb_true_r.
Qed.

Lemma str_leb_total a b : str_leb a b = true ∨ str_leb b a = true.
Proof.
  revert b. induction a as [|x a IH]; intros [|y b]; simpl; auto.
  destruct (N.ltb_spec x y), (N.ltb_spec y x), (N.eqb_spec x y), (N.eqb_spec y x);
    simpl; auto; lia.
Qed.

Lemma str_leb_trans a b c :
  str_leb a b = true → str_leb b c = true → str_leb a c = true.
Proof.
  revert b c. induction a as [|x a IH]; intros [|y b] [|z c]; simpl; auto; try done.
  destruct (N.ltb_spec x y), (N.ltb_spec y z), (N.ltb_spec x z),
    (N.eqb_spec x y), (N.eqb_spec y z), (N.eqb_spec x z); simpl; auto; try lia.
  apply IH.
Qed.

Lemma str_leb_antisym a b : str_leb a b = true → str_leb b a = true → a = b.
Proof.
  revert b. induction a as [|x a IH]; intros [|y b]; simpl; try done.
  destruct (N.ltb_spec x y), (N.ltb_spec y x), (N.eqb_spec x y), (N.eqb_spec y x);
    simpl; try done; try lia.
  intros. f_equal; auto.
Qed.

Global Instance str_le_refl : Reflexive str_le.
Proof. intros a. apply str_leb_refl. Qed.
Global Instance str_le_total : Total str_le.
Proof. intros a b. apply str_leb_total. Qed.
Global Instance str_le_trans : Transitive str_le.
Proof. intros a b c. apply str_leb_trans. Qed.
Global Instance str_le_antisym : AntiSymm (=) str_le.
Proof. intros a b. apply str_leb_antisym. Qed.

Lemma sorted_set_Permutation l :
  sorted_set l ≡ₚ elements (list_to_set l : gset str).
Proof. apply merge_sort_Permutation. Qed.

Lemma elem_of_sorted_set l x : x ∈ sorted_set l ↔ x ∈ l.
Proof.
  rewrite sorted_set_Permutation, elem_of_elements. apply elem_of_list_to_set.
Qed.

Lemma NoDup_sorted_set l : NoDup (sorted_set l).
Proof. rewrite sorted_set_Permutation. apply NoDup_elements. Qed.

Lemma Sorted_sorted_set l : StronglySorted str_le (sorted_set l).
Proof. apply StronglySorted_merge_sort; apply _. Qed.

Lemma length_sorted_set l :
  length (sorted_set l) = size (list_to_set l : gset str).
Proof. by rewrite sorted_set_Permutation. Qed.

(** Only the set of the tokens matters, not their order or repetition. *)
Lemma sorted_set_ext l1 l2 :
  (∀ x, x ∈ l1 ↔ x ∈ l2) → sorted_set l1 = sorted_set l2.
Proof.
  intros Hiff. unfold sorted_set. f_equal. f_equal.
  apply set_eq. intros x. by rewrite !elem_of_list_to_set.
Qed.

(** ** Inversion of a successful parse *)

Section Translator.
Variable unicode_word : N → bool.
Context {engine : Engine}.

Lemma parse_boolean_expression_Ok expr_input e variables vars_names :
  parse_boolean_expression unicode_word expr_input = Ok (e, variables, vars_names) →
  strip expr_input ≠ []
  ∧ vars_names = extract_variables unicode_word (substitute_symbols (strip expr_input))
  ∧ vars_names ≠ []
  ∧ variables = symbols vars_names
  ∧ sympify (substitute_symbols (strip expr_input)) (var_dict_of variables) = Ok e.
Proof.
  unfold parse_boolean_expression.
  case_bool_decide as Hempty; [done|].
  unfold try_except. simpl.
  case_bool_decide as Hvars; [done|].
  destruct (sympify _ _) as [e'|err] eqn:Hs; simpl; [|done].
  intros [= <- <- <-]. done.
Qed.

(** Every failure of the parser is a [ValueError]. *)
Lemma parse_boolean_expression_Raise expr_input err :
  parse_boolean_expression unicode_word expr_input = Raise err →
  exn_kind_of err = ValueError.
Proof.
  unfold parse_boolean_expression.
  case_bool_decide as Hempty; [by intros [= <-]|].
  unfold try_except.
  destruct (if bool_decide _ then _ else _) as [r|err']; [done|].
  by intros [= <-].
Qed.

End Translator.

(** ** The dictionary of one assignment *)

Lemma foldl_insert_lookup_notin (l : list (Symbol * Z)) (d : gmap Symbol Z) x :
  x ∉ l.*1 → foldl (λ d kv, <[kv.1 := kv.2]> d) d l !! x = d !! x.
Proof.
  revert d. induction l as [|[k v] l IH]; intros d Hx; simpl; [done|].
  simpl in Hx. apply not_elem_of_cons in Hx as [Hne Hx].
  rewrite IH by done. by rewrite lookup_insert_ne.
Qed.



Lemma str_of_int_bit b : str_of_int (Z.b2z b) = py "0" ∨ str_of_int (Z.b2z b) = py "1".
Proof. destruct b; [right|left]; reflexivity. Qed.

Lemma str_of_int_of_bool b :
  str_of_int (int_of_bool b) = py "0" ∨ str_of_int (int_of_bool b) = py "1".
Proof. destruct b; [right|left]; reflexivity. Qed.

(** * The claims about the enumerator *)

(** C1: for every input that the translator accepts and whose expression
    evaluates under each assignment, with N distinct variable identifiers in
    it, [generate_truth_table] returns exactly [2^N] rows, and row [i], for
    [i] from [0] to [2^N - 1], starts with the index [i]. *)
Theorem generate_truth_table_row_count
    (unicode_word : N → bool) (engine : Engine)
    (expr_input : str) (e : Expr) (variables : list Symbol) (vars_names : list str) :
  parse_boolean_expression unicode_word expr_input = Ok (e, variables, vars_names) →
  evaluates e variables →
  length vars_names
    = size (list_to_set (findall unicode_word (substitute_symbols (strip expr_input)))
              : gset str)
  ∧ ∃ rows, generate_truth_table e variables = Ok rows
      ∧ length rows = 2 ^ length vars_names
      ∧ ∀ i, i < 2 ^ length vars_names →
          ∃ cells, rows !! i = Some (str_of_int (Z.of_nat i) :: cells).
Proof.
  intros Hparse Heval.
  apply parse_boolean_expression_Ok in Hparse as (_ & Hnames & _ & Hvars & _).
  split.
  { rewrite Hnames. apply length_sorted_set. }
  destruct (generate_truth_table_total e variables Heval) as [rows Hrows].
  exists rows. split; [done|].
  apply generate_truth_table_rows in Hrows as [Hlen Hrow].
  assert (length variables = length vars_names) as Hn.
  { rewrite Hvars. unfold symbols. apply length_fmap. }
  rewrite Hn in Hlen, Hrow. split; [done|].
  intros i Hi. destruct (Hrow i Hi) as (row & Hlookup & Hok).
  apply table_row_Ok in Hok as (e' & b & _ & _ & ->).
  eexists. exact Hlookup.
Qed.


(** C10: every row of a table returned by [generate_truth_table] for N
    variables has exactly [N + 2] cells: the decimal row index, then N cells
    that are each "0" or "1", then the function value, which is "0" or "1". *)
Theorem generate_truth_table_row_shape
    (engine : Engine) (e : Expr) (variables : list Symbol)
    (rows : list (list str)) (i : nat) (row : list str) :
  generate_truth_table e variables = Ok rows →
  rows !! i = Some row →
  length row = length variables + 2
  ∧ ∃ cells func_val,
      row = [str_of_int (Z.of_nat i)] ++ cells ++ [func_val]
      ∧ length cells = length variables
      ∧ Forall (λ c, c = py "0" ∨ c = py "1") cells
      ∧ (func_val = py "0" ∨ func_val = py "1").
Proof.
  intros Hgen Hlookup.
  apply generate_truth_table_rows in Hgen as [Hlen Hrow].
  assert (i < 2 ^ length variables) as Hi.
  { rewrite <- Hlen. by eapply lookup_lt_Some. }
  destruct (Hrow i Hi) as (row' & Hlookup' & Hok).
  assert (row' = row) as -> by congruence.
  apply table_row_Ok in Hok as (e' & b & _ & _ & ->).
  split.
  { rewrite !length_app, length_fmap, length_binary_digits. simpl. lia. }
  eexists _, _. split; [reflexivity|].
  split; [by rewrite length_fmap, length_binary_digits|].
  split; [|apply str_of_int_of_bool].
  apply Forall_fmap, Forall_forall. intros v Hv.
  unfold binary_digits in Hv. apply list_elem_of_fmap in Hv as (j & -> & _).
  apply str_of_int_bit.
Qed.

(** The row count on the input [A*B]. *)
Lemma generate_truth_table_row_count_witness :
  ∃ rows, generate_truth_table (engine := Boolean.engine) A_and_B [sym_A; sym_B] = Ok rows
    ∧ length rows = 4.
Proof.
  destruct (generate_truth_table_row_count ascii_only Boolean.engine
              (py "A*B") A_and_B [sym_A; sym_B] [py "A"; py "B"])
    as (_ & rows & Hrows & Hlen & _).
  - vm_compute. reflexivity.
  - intros values Hin. simpl in Hin.
    repeat (apply elem_of_cons in Hin as [->|Hin]);
      [ | | | | by apply elem_of_nil in Hin];
      eexists _, _; split; vm_compute; reflexivity.
  - exists rows. split; [exact Hrows | exact Hlen].
Defined.


(** The last row of the table of [A*B]. *)
Lemma generate_truth_table_row_shape_witness :
  length [py "3"; py "1"; py "1"; py "1"] = 4
  ∧ ∃ cells func_val,
      [py "3"; py "1"; py "1"; py "1"] = [str_of_int 3] ++ cells ++ [func_val]
      ∧ length cells = 2
      ∧ Forall (λ c, c = py "0" ∨ c = py "1") cells
      ∧ (func_val = py "0" ∨ func_val = py "1").
Proof.
  apply (generate_truth_table_row_shape Boolean.engine A_and_B [sym_A; sym_B]
           [[py "0"; py "0"; py "0"; py "0"]; [py "1"; py "0"; py "1"; py "0"];
            [py "2"; py "1"; py "0"; py "0"]; [py "3"; py "1"; py "1"; py "1"]]
           3).
  - vm_compute. reflexivity.
  - reflexivity.
Defined.

(** * The claims about the translator *)

Lemma replace_from_char a b s :
  replace_from [a] [b] 0 s = (λ c, if (c =? a)%N then b else c) <$> s.
Proof.
  induction s as [|c rest IH]; [reflexivity|].
  cbn [replace_from fmap list_fmap length pred].
  case_bool_decide as Hpre.
  - destruct Hpre as [k Hk]. injection Hk as -> _.
    rewrite N.eqb_refl. simpl. f_equal. apply IH.
  - destruct (N.eqb_spec c a) as [->|Hne].
    + destruct Hpre. by exists rest.
    + f_equal. apply IH.
Qed.

(** Replacing one character by another maps over the string. *)
Lemma replace_char a b s :
  replace [a] [b] s = (λ c, if (c =? a)%N then b else c) <$> s.
Proof. apply replace_from_char. Qed.

Lemma substitute_symbols_fmap s : substitute_symbols s = translate_char <$> s.
Proof.
  unfold substitute_symbols.
  change (py "|") with [124%N]. change (py "&") with [38%N].
  change (py "~") with [126%N]. change (py "+") with [43%N].
  change (py "^") with [94%N]. change (py "*") with [42%N].
  rewrite !replace_char, <- !list_fmap_compose.
  apply list_fmap_ext. intros _ c _. unfold translate_char, NOT_SIGN, LOGICAL_OR.
  cbn [compose].
  destruct (N.eqb_spec c 172) as [->|?]; [reflexivity|].
  destruct (N.eqb_spec c 42) as [->|?]; [reflexivity|].
  destruct (N.eqb_spec c 94) as [->|?]; [reflexivity|].
  destruct (N.eqb_spec c 43) as [->|?]; [reflexivity|].
  destruct (N.eqb_spec c 8744) as [->|?]; reflexivity.
Qed.

(** C4: the translation replaces characters one by one before parsing: NOT
    becomes [~], [*] and [^] become [&], [+] and OR become [|], everything
    else is kept; the Boolean engine reads these as negation, AND and OR; and
    the input [A^B^C] is parsed as the AND of three variables, whose truth
    table has 8 rows with function value 1 only for (1,1,1). *)
Theorem lexical_substitution (unicode_word : N → bool) :
  (∀ s, substitute_symbols s = translate_char <$> s)
  ∧ (∀ (engine : Engine) expr_input e variables vars_names,
       parse_boolean_expression unicode_word expr_input = Ok (e, variables, vars_names) →
       sympify (translate_char <$> strip expr_input) (var_dict_of variables) = Ok e)
  ∧ translate_char NOT_SIGN = 126%N
  ∧ translate_char 42 = 38%N ∧ translate_char 94 = 38%N
  ∧ translate_char 43 = 124%N ∧ translate_char LOGICAL_OR = 124%N
  ∧ Boolean.punctuation 126 = Some Boolean.TInvert
  ∧ Boolean.punctuation 38 = Some Boolean.TAmp
  ∧ Boolean.punctuation 124 = Some Boolean.TBar
  ∧ parse_boolean_expression (engine := Boolean.engine) unicode_word (py "A^B^C")
    = Ok (A_and_B_and_C, [sym_A; sym_B; sym_C], [py "A"; py "B"; py "C"])
  ∧ generate_truth_table (engine := Boolean.engine) A_and_B_and_C [sym_A; sym_B; sym_C]
    = Ok [[py "0"; py "0"; py "0"; py "0"; py "0"];
          [py "1"; py "0"; py "0"; py "1"; py "0"];
          [py "2"; py "0"; py "1"; py "0"; py "0"];
          [py "3"; py "0"; py "1"; py "1"; py "0"];
          [py "4"; py "1"; py "0"; py "0"; py "0"];
          [py "5"; py "1"; py "0"; py "1"; py "0"];
          [py "6"; py "1"; py "1"; py "0"; py "0"];
          [py "7"; py "1"; py "1"; py "1"; py "1"]].
Proof.
  split; [apply substitute_symbols_fmap|]. split.
  { intros engine expr_input e variables vars_names Hparse.
    apply parse_boolean_expression_Ok in Hparse as (_ & _ & _ & _ & Hs).
    by rewrite <- substitute_symbols_fmap. }
  repeat (split; [vm_compute; reflexivity|]). vm_compute. reflexivity.
Qed.

(** What the engine is handed for the input [A^B^C]. *)
Lemma lexical_substitution_witness :
  sympify (Engine := Boolean.engine) (py "A&B&C")
    (var_dict_of [sym_A; sym_B; sym_C]) = Ok A_and_B_and_C.
Proof.
  destruct (lexical_substitution ascii_only) as (_ & Hparse & _).
  apply (Hparse Boolean.engine (py "A^B^C") A_and_B_and_C
           [sym_A; sym_B; sym_C] [py "A"; py "B"; py "C"]).
  vm_compute. reflexivity.
Defined.

(** C5: the end-to-end scenarios. The input [A*B] yields the variables
    [A, B] and the rows (0,0)→0, (0,1)→0, (1,0)→0, (1,1)→1; the input
    NOT A + B yields the variables [A, B] and the rows (0,0)→1, (0,1)→1,
    (1,0)→0, (1,1)→1. *)
Theorem end_to_end_scenarios (unicode_word : N → bool) :
  parse_boolean_expression (engine := Boolean.engine) unicode_word (py "A*B")
    = Ok (A_and_B, [sym_A; sym_B], [py "A"; py "B"])
  ∧ generate_truth_table (engine := Boolean.engine) A_and_B [sym_A; sym_B]
    = Ok [[py "0"; py "0"; py "0"; py "0"];
          [py "1"; py "0"; py "1"; py "0"];
          [py "2"; py "1"; py "0"; py "0"];
          [py "3"; py "1"; py "1"; py "1"]]
  ∧ parse_boolean_expression (engine := Boolean.engine) unicode_word
      (NOT_SIGN :: py "A+B")
    = Ok (not_A_or_B, [sym_A; sym_B], [py "A"; py "B"])
  ∧ generate_truth_table (engine := Boolean.engine) not_A_or_B [sym_A; sym_B]
    = Ok [[py "0"; py "0"; py "0"; py "1"];
          [py "1"; py "0"; py "1"; py "1"];
          [py "2"; py "1"; py "0"; py "0"];
          [py "3"; py "1"; py "1"; py "1"]].
Proof. repeat (split; [vm_compute; reflexivity|]). vm_compute. reflexivity. Qed.

(** ** The regular expression against the runs of word characters *)

Lemma ident_char_ascii c : ident_char c = true → (c <? 128)%N = true.
Proof.
  unfold ident_char, ident_start, in_range. intros Hc.
  apply N.ltb_lt.
  repeat match type of Hc with
         | context [(?a <=? ?b)%N] => destruct (N.leb_spec a b)
         | context [(?a =? ?b)%N] => destruct (N.eqb_spec a b)
         end; simpl in Hc; try discriminate; lia.
Qed.

Lemma ident_start_char c : ident_start c = true → ident_char c = true.
Proof. unfold ident_char. intros ->. reflexivity. Qed.

Lemma take_drop_while {A} (p : A → bool) l : take_while p l ++ drop_while p l = l.
Proof.
  induction l as [|x l IH]; simpl; [done|].
  destruct (p x); simpl; [by rewrite IH|done].
Qed.

Lemma length_drop_while {A} (p : A → bool) l : length (drop_while p l) ≤ length l.
Proof.
  induction l as [|x l IH]; simpl; [done|].
  destruct (p x); simpl; lia.
Qed.

Lemma Forall_take_while {A} (p : A → bool) l :
  Forall (λ x, p x = true) (take_while p l).
Proof.
  induction l as [|x l IH]; simpl; [constructor|].
  destruct (p x) eqn:Hx; by constructor.
Qed.

Lemma lookup_after_take_while {A} (p : A → bool) l x :
  l !! length (take_while p l) = Some x → p x = false.
Proof.
  induction l as [|y l IH]; simpl; [done|].
  destruct (p y) eqn:Hy; simpl; [done|]. by intros [= <-].
Qed.

Lemma take_while_all {A} (p : A → bool) l : forallb p l = true → take_while p l = l.
Proof.
  induction l as [|x l IH]; simpl; [done|].
  destruct (p x); simpl; [|done]. intros Hl. by rewrite IH.
Qed.

Lemma take_while_not_all {A} (p : A → bool) l :
  forallb p l = false → length (take_while p l) < length l.
Proof.
  induction l as [|x l IH]; simpl; [done|].
  destruct (p x); simpl; [|lia]. intros Hl. apply IH in Hl. lia.
Qed.

Lemma drop_while_drop_while {A} (p : A → bool) l :
  drop_while p (drop_while p l) = drop_while p l.
Proof.
  induction l as [|x l IH]; simpl; [done|].
  destruct (p x) eqn:Hx; [done|]. simpl. by rewrite Hx.
Qed.

Lemma take_while_drop_while {A} (p : A → bool) l :
  take_while p (drop_while p l) = [].
Proof.
  induction l as [|x l IH]; simpl; [done|].
  destruct (p x) eqn:Hx; [done|]. simpl. by rewrite Hx.
Qed.

Section RegexProperties.
Variable unicode_word : N → bool.

Local Abbreviation W := (is_word unicode_word).
Local Abbreviation M := (match_at unicode_word).

Lemma ident_char_word c : ident_char c = true → W c = true.
Proof. intros Hc. unfold is_word. by rewrite (ident_char_ascii c Hc). Qed.

Lemma ident_start_word c : ident_start c = true → W c = true.
Proof. intros Hc. by apply ident_char_word, ident_start_char. Qed.

Lemma take_while_ident_char_word rest :
  take_while ident_char rest = take_while ident_char (take_while W rest).
Proof.
  induction rest as [|c rest IH]; simpl; [done|].
  destruct (ident_char c) eqn:Hc.
  - rewrite (ident_char_word c Hc). simpl. by rewrite Hc, IH.
  - destruct (W c); simpl; [by rewrite Hc|done].
Qed.

Lemma word_at_last l :
  Forall (λ c, W c = true) l → l ≠ [] → word_at unicode_word (last l) = true.
Proof.
  intros Hall Hne. destruct (last l) as [x|] eqn:Hlast.
  - simpl. apply last_Some_elem_of in Hlast.
    by eapply Forall_forall in Hall.
  - by apply last_None in Hlast.
Qed.

(** After a word character no match can start. *)
Lemma match_at_prev_word prev s :
  word_at unicode_word prev = true → M prev s = None.
Proof.
  intros Hprev. destruct s as [|c rest]; [done|].
  unfold match_at, word_boundary. rewrite Hprev. simpl.
  destruct (W c) eqn:Hc; simpl; [done|].
  destruct (ident_start c) eqn:Hs; [|done].
  apply ident_start_word in Hs. congruence.
Qed.

Lemma match_at_nonword prev c rest : W c = false → M prev (c :: rest) = None.
Proof.
  intros Hc. unfold match_at.
  destruct (ident_start c) eqn:Hs; [|by rewrite andb_false_r].
  apply ident_start_word in Hs. congruence.
Qed.

Lemma backtrack_star_here c0 rest k :
  word_boundary unicode_word (last (c0 :: take k rest)) (rest !! k) = true →
  backtrack_star unicode_word c0 rest k = Some k.
Proof. intros Hb. destruct k; simpl in *; by rewrite Hb. Qed.

Lemma backtrack_star_none c0 rest k :
  (∀ j, j ≤ k →
     word_boundary unicode_word (last (c0 :: take j rest)) (rest !! j) = false) →
  backtrack_star unicode_word c0 rest k = None.
Proof.
  induction k as [|k IH]; intros Hb.
  - cbn [backtrack_star]. by rewrite (Hb 0) by lia.
  - cbn [backtrack_star]. rewrite (Hb (S k)) by lia. apply IH.
    intros j Hj. apply Hb. lia.
Qed.

(** At a position that follows a non-word character and holds a word
    character, the pattern matches exactly when the whole run of word
    characters is an identifier, and then it matches the whole run. *)
Lemma match_at_boundary prev c0 rest :
  word_at unicode_word prev = false → W c0 = true →
  M prev (c0 :: rest)
  = if is_identifier (c0 :: take_while W rest)
    then Some (c0 :: take_while W rest) else None.
Proof.
  intros Hprev Hc0. unfold match_at, word_boundary at 1.
  rewrite Hprev. cbn [word_at from_option xorb is_identifier]. rewrite Hc0.
  cbn [negb]. destruct (ident_start c0) eqn:Hs; cbn [andb]; [|done].
  rewrite take_while_ident_char_word.
  set (w := take_while W rest).
  assert (Forall (λ c, W c = true) w) as Hw by apply Forall_take_while.
  assert (rest = w ++ drop_while W rest) as Hrest
    by (symmetry; apply take_drop_while).
  assert (∀ j, j ≤ length w →
            word_at unicode_word (last (c0 :: take j rest)) = true) as Hleft.
  { intros j Hj. apply word_at_last; [|done].
    constructor; [done|]. rewrite Hrest, take_app_le by done.
    by apply Forall_take. }
  destruct (forallb ident_char w) eqn:Hall.
  - rewrite take_while_all by done.
    rewrite backtrack_star_here.
    + cbn. rewrite Hrest at 1. by rewrite take_app_length.
    + unfold word_boundary. rewrite Hleft by done.
      destruct (rest !! length w) as [x|] eqn:Hx; [|done].
      apply lookup_after_take_while in Hx. simpl. by rewrite Hx.
  - apply take_while_not_all in Hall.
    rewrite backtrack_star_none; [done|].
    intros j Hj. unfold word_boundary. rewrite Hleft by lia.
    destruct (lookup_lt_is_Some_2 w j) as [x Hx]; [lia|].
    rewrite Hrest, (lookup_app_l_Some _ _ _ _ Hx). simpl.
    eapply Forall_lookup in Hw; [|done]. by rewrite Hw.
Qed.

Lemma findall_from_prev_ext k prev prev' s :
  word_at unicode_word prev = word_at unicode_word prev' →
  findall_from M k prev s = findall_from M k prev' s.
Proof.
  intros Heq. destruct s as [|c rest]; [done|].
  destruct k; [|done]. cbn [findall_from].
  assert (M prev (c :: rest) = M prev' (c :: rest)) as ->; [|done].
  unfold match_at, word_boundary. by rewrite Heq.
Qed.

(** Inside a run of word characters nothing matches; the scan resumes after
    the run. *)
Lemma findall_in_word prev s :
  word_at unicode_word prev = true →
  findall_from M 0 prev s = findall_from M 0 None (drop_while W s).
Proof.
  revert prev. induction s as [|c rest IH]; intros prev Hprev; [done|].
  cbn [findall_from drop_while]. rewrite match_at_prev_word by done.
  destruct (W c) eqn:Hc.
  - by apply IH.
  - cbn [findall_from]. by rewrite match_at_nonword.
Qed.

Lemma findall_skip k prev s :
  k ≤ length (take_while W s) → word_at unicode_word prev = true →
  findall_from M k prev s = findall_from M 0 None (drop_while W s).
Proof.
  revert prev s. induction k as [|k IH]; intros prev s Hk Hprev.
  - by apply findall_in_word.
  - destruct s as [|c rest]; [simpl in Hk; lia|].
    simpl in Hk. cbn [findall_from drop_while].
    destruct (W c) eqn:Hc; [|simpl in Hk; lia].
    apply IH; [simpl in Hk; lia|done].
Qed.

Lemma findall_cons_word c0 rest :
  W c0 = true →
  findall unicode_word (c0 :: rest)
  = (if is_identifier (c0 :: take_while W rest)
     then [c0 :: take_while W rest] else [])
    ++ findall unicode_word (drop_while W rest).
Proof.
  intros Hc0. unfold findall. cbn [findall_from].
  rewrite match_at_boundary by done.
  destruct (is_identifier _).
  - cbn [length pred app]. f_equal. by apply findall_skip.
  - by apply findall_in_word.
Qed.

Lemma findall_cons_nonword c0 rest :
  W c0 = false → findall unicode_word (c0 :: rest) = findall unicode_word rest.
Proof.
  intros Hc0. unfold findall. cbn [findall_from].
  rewrite match_at_nonword by done.
  apply findall_from_prev_ext. simpl. by rewrite Hc0.
Qed.

Lemma flush_run_nil : flush_run [] = [].
Proof. done. Qed.

Lemma flush_run_cons c cur : flush_run (c :: cur) = [c :: cur].
Proof. done. Qed.

Lemma word_runs_from_split cur s :
  word_runs_from unicode_word cur s
  = flush_run (cur ++ take_while W s)
    ++ word_runs_from unicode_word [] (drop_while W s).
Proof.
  revert cur. induction s as [|c rest IH]; intros cur.
  - simpl. by rewrite !app_nil_r.
  - cbn [word_runs_from take_while drop_while]. destruct (W c) eqn:Hc.
    + rewrite IH. by rewrite <- app_assoc.
    + cbn [word_runs_from]. rewrite Hc, app_nil_r. done.
Qed.

Lemma word_runs_cons_word c0 rest :
  W c0 = true →
  word_runs unicode_word (c0 :: rest)
  = (c0 :: take_while W rest) :: word_runs unicode_word (drop_while W rest).
Proof.
  intros Hc0. unfold word_runs. cbn [word_runs_from]. rewrite Hc0.
  by rewrite word_runs_from_split.
Qed.

Lemma word_runs_cons_nonword c0 rest :
  W c0 = false → word_runs unicode_word (c0 :: rest) = word_runs unicode_word rest.
Proof. intros Hc0. unfold word_runs. cbn [word_runs_from]. by rewrite Hc0. Qed.

(** The matches of the program's pattern are the maximal runs of word
    characters that are identifiers. *)
Lemma findall_word_runs s :
  findall unicode_word s = List.filter is_identifier (word_runs unicode_word s).
Proof.
  remember (length s) as n eqn:Hn. revert s Hn.
  induction (lt_wf n) as [n _ IH]. intros s ->.
  destruct s as [|c0 rest]; [done|].
  destruct (W c0) eqn:Hc0.
  - rewrite findall_cons_word, word_runs_cons_word by done.
    cbn [List.filter].
    pose proof (length_drop_while W rest) as Hlen.
    rewrite (IH (length (drop_while W rest))); [|simpl; lia|done].
    by destruct (is_identifier _).
  - rewrite findall_cons_nonword, word_runs_cons_nonword by done.
    eapply IH; [|done]. simpl. lia.
Qed.

End RegexProperties.

(** C3 (as stated, refuted): the extraction is not the set of all maximal
    tokens matching [[A-Za-z_][A-Za-z0-9_]*]. In [2x] the token [x] matches,
    but the pattern of the program asks for a word boundary in front of it
    and there is none after the digit: nothing is extracted. *)
Lemma extraction_misses_token_after_digit :
  extract_variables ascii_only (py "2x") = []
  ∧ sorted_set (maximal_tokens (py "2x")) = [py "x"]
  ∧ extract_variables ascii_only (py "2x") ≠ sorted_set (maximal_tokens (py "2x")).
Proof.
  split; [vm_compute; reflexivity|]. split; [vm_compute; reflexivity|].
  vm_compute. discriminate.
Qed.

(** C3 (amended): for every input string, the variable extraction of
    [parse_boolean_expression] identifies every maximal run of word
    characters that as a whole matches [[A-Za-z_][A-Za-z0-9_]*], removes
    duplicates and returns the names in ascending code-point order; the
    result depends only on which identifiers occur, not on their order, and
    the input [B+A] yields [A, B]. *)
Theorem variable_extraction (unicode_word : N → bool) :
  (∀ s,
     extract_variables unicode_word s
     = sorted_set (List.filter is_identifier (word_runs unicode_word s))
     ∧ (∀ x, x ∈ extract_variables unicode_word s
             ↔ x ∈ word_runs unicode_word s ∧ is_identifier x = true)
     ∧ NoDup (extract_variables unicode_word s)
     ∧ StronglySorted str_le (extract_variables unicode_word s))
  ∧ (∀ s1 s2,
       (∀ x, x ∈ List.filter is_identifier (word_runs unicode_word s1)
             ↔ x ∈ List.filter is_identifier (word_runs unicode_word s2)) →
       extract_variables unicode_word s1 = extract_variables unicode_word s2)
  ∧ (∀ (engine : Engine) expr_input e variables vars_names,
       parse_boolean_expression unicode_word expr_input = Ok (e, variables, vars_names) →
       vars_names
       = sorted_set (List.filter is_identifier
                       (word_runs unicode_word (substitute_symbols (strip expr_input)))))
  ∧ extract_variables unicode_word (substitute_symbols (py "B+A")) = [py "A"; py "B"].
Proof.
  split; [|split; [|split]].
  - intros s. unfold extract_variables. rewrite findall_word_runs.
    split; [done|]. split; [|split].
    + intros x. rewrite elem_of_sorted_set, list_elem_of_In, filter_In.
      by rewrite <- list_elem_of_In.
    + apply NoDup_sorted_set.
    + apply Sorted_sorted_set.
  - intros s1 s2 Hsame. unfold extract_variables. rewrite !findall_word_runs.
    by apply sorted_set_ext.
  - intros engine expr_input e variables vars_names Hparse.
    apply parse_boolean_expression_Ok in Hparse as (_ & -> & _).
    unfold extract_variables. by rewrite findall_word_runs.
  - vm_compute. reflexivity.
Qed.

(** The same identifiers in another order. *)
Lemma variable_extraction_witness :
  extract_variables ascii_only (py "B|A") = extract_variables ascii_only (py "A|B").
Proof.
  destruct (variable_extraction ascii_only) as (_ & Horder & _).
  apply Horder. intros x. vm_compute List.filter.
  rewrite !elem_of_cons. tauto.
Defined.

(** * The renderer *)

Lemma cell_text_set_cell_center cell text :
  cell_text (set_cell_center cell text) = text.
Proof. unfold cell_text, paragraph_text. simpl. apply app_nil_r. Qed.

Lemma set_table_cell_Ok t r c text t' :
  set_table_cell t r c text = Ok t' ↔
  ∃ row cell,
    table_rows t !! r = Some row ∧ row !! c = Some cell
    ∧ t' = {| table_rows := <[r := <[c := set_cell_center cell text]> row]> (table_rows t);
              table_borders := table_borders t |}.
Proof.
  unfold set_table_cell. split.
  - destruct (table_rows t !! r) as [row|]; [|done].
    destruct (row !! c) as [cell|] eqn:Hcell; [|done].
    intros [= <-]. by exists row, cell.
  - intros (row & cell & -> & -> & ->). done.
Qed.

Lemma set_table_cell_keeps_header t0 t r c text t' :
  keeps_header t0 t → set_table_cell t (r + 1) c text = Ok t' → keeps_header t0 t'.
Proof.
  intros [Hlen Hhead] Hset.
  apply set_table_cell_Ok in Hset as (row & cell & _ & _ & ->).
  unfold keeps_header. cbn [table_rows]. split.
  - by rewrite length_insert.
  - rewrite list_lookup_insert_ne by lia. done.
Qed.

Lemma for_each_invariant {A S} (P : S → Prop) (l : list A) body s s' :
  (∀ s x s', P s → body s x = Ok s' → P s') →
  P s → for_each l body s = Ok s' → P s'.
Proof.
  intros Hbody. revert s. induction l as [|x l IH]; intros s Hs; simpl.
  - by intros [= <-].
  - intros Hloop. apply bind_Ok in Hloop as (s1 & Hx & Hloop).
    by eapply IH, Hloop; eapply Hbody.
Qed.

Lemma data_loop_keeps_header rows_data t t' :
  for_each (enumerate rows_data)
    (λ table '(i, row),
       for_each (enumerate row)
         (λ table '(j, val), set_table_cell table (i + 1) j val) table) t = Ok t' →
  keeps_header t t'.
Proof.
  apply for_each_invariant with (P := keeps_header t); [|done].
  intros t1 [i row] t2 Ht1. simpl.
  apply for_each_invariant with (P := keeps_header t); [|done].
  intros t3 [j val] t4 Ht3. simpl.
  by apply set_table_cell_keeps_header.
Qed.

(** The loop over the variable names fills the cells after the index
    column, left to right. *)
Lemma header_names_loop names k pre post rest_rows t :
  table_rows t = (pre ++ replicate (length names) empty_cell ++ post) :: rest_rows →
  length pre = S k →
  for_each (imap (λ j name, (k + j, name)) names)
    (λ table '(j, name), set_table_cell table 0 (j + 1) name) t
  = Ok {| table_rows :=
            (pre ++ (set_cell_center empty_cell <$> names) ++ post) :: rest_rows;
          table_borders := table_borders t |}.
Proof.
  revert k pre t. induction names as [|name names IH]; intros k pre t Hrows Hpre.
  - simpl in *. rewrite <- Hrows. by destruct t.
  - cbn [imap for_each length replicate app] in *.
    set (t1 := {| table_rows :=
                    ((pre ++ [set_cell_center empty_cell name])
                     ++ replicate (length names) empty_cell ++ post) :: rest_rows;
                  table_borders := table_borders t |}).
    assert (set_table_cell t 0 (k + 0 + 1) name = Ok t1) as ->.
    { apply set_table_cell_Ok. eexists _, empty_cell.
      split; [by rewrite Hrows|].
      replace (k + 0 + 1) with (length pre) by lia.
      split; [by apply list_lookup_middle|].
      unfold t1. rewrite Hrows. cbn [insert list_insert]. do 2 f_equal.
      rewrite insert_app_r_alt, Nat.sub_diag by lia.
      cbn [insert list_insert]. by rewrite <- app_assoc. }
    rewrite bind_Ok_l.
    erewrite imap_ext; [rewrite (IH (S k) (pre ++ [set_cell_center empty_cell name]) t1)|].
    + cbn [t1 table_borders fmap list_fmap]. by rewrite <- !app_assoc.
    + done.
    + rewrite length_app. simpl. lia.
    + intros j x _. simpl. f_equal. lia.
Qed.

(** The three header steps on a fresh table. *)
Lemma header_steps (vars_names : list str) (n_rows : nat) :
  let cols := length vars_names + 2 in
  (table ← set_table_cell (add_table (n_rows + 1) cols) 0 0 [NUMERO_SIGN];
   table ← for_each (enumerate vars_names)
             (λ table '(j, name), set_table_cell table 0 (j + 1) name) table;
   set_table_cell table 0 (pred cols) (py "f"))
  = Ok {| table_rows := header_row vars_names
                        :: replicate n_rows (replicate cols empty_cell);
          table_borders := [] |}.
Proof.
  intros cols. unfold cols, add_table, header_row.
  rewrite Nat.add_1_r.
  replace (length vars_names + 2) with (S (length vars_names + 1)) by lia.
  cbn [replicate set_table_cell table_rows table_borders lookup list_lookup
       insert list_insert mbind result_bind pred].
  unfold set_table_cell at 2. cbn [table_rows lookup list_lookup].
  unfold enumerate.
  rewrite (header_names_loop vars_names 0 [set_cell_center empty_cell [NUMERO_SIGN]]
             [empty_cell]
             (replicate n_rows (empty_cell :: replicate (length vars_names + 1) empty_cell))).
  - cbn [mbind result_bind]. unfold set_table_cell.
    cbn [table_rows table_borders lookup list_lookup].
    assert (length (set_cell_center empty_cell [NUMERO_SIGN]
                    :: (set_cell_center empty_cell <$> vars_names))
            = length vars_names + 1) as Hlen.
    { simpl. rewrite length_fmap. lia. }
    change ([set_cell_center empty_cell [NUMERO_SIGN]]
            ++ (set_cell_center empty_cell <$> vars_names) ++ [empty_cell])
      with ((set_cell_center empty_cell [NUMERO_SIGN]
             :: (set_cell_center empty_cell <$> vars_names)) ++ [empty_cell]).
    rewrite <- Hlen at 1. rewrite list_lookup_middle by done.
    cbn [insert list_insert]. f_equal. f_equal. f_equal.
    rewrite <- Hlen at 1.
    rewrite insert_app_r_alt by lia. rewrite Nat.sub_diag.
    cbn [insert list_insert fmap list_fmap].
    by rewrite fmap_app.
  - cbn [table_rows app]. f_equal. f_equal.
    replace (length vars_names + 1) with (S (length vars_names)) by lia.
    rewrite replicate_S_end. done.
  - done.
Qed.

Lemma paragraph_text_single r a :
  paragraph_text {| paragraph_runs := [r]; paragraph_alignment := a |} = run_text r.
Proof. unfold paragraph_text. simpl. apply app_nil_r. Qed.

Lemma header_texts_header_row vars_names rest_rows borders :
  header_texts {| table_rows := header_row vars_names :: rest_rows;
                  table_borders := borders |}
  = [NUMERO_SIGN] :: vars_names ++ [py "f"].
Proof.
  change (cell_text <$> header_row vars_names
          = [NUMERO_SIGN] :: vars_names ++ [py "f"]).
  unfold header_row. rewrite <- list_fmap_compose.
  rewrite <- (list_fmap_id ([NUMERO_SIGN] :: vars_names ++ [py "f"])) at 2.
  apply list_fmap_ext. intros _ text _. apply cell_text_set_cell_center.
Qed.

(** What a successful call of the renderer leaves behind. *)
Lemma create_docx_table_Ok rows_data vars_names user_expression output_file w w' :
  create_docx_table rows_data vars_names user_expression output_file w = Ok w' →
  ∃ doc table,
    files w' = <[output_file := doc]> (files w)
    ∧ caption_of doc = Some (caption_prefix ++ user_expression)
    ∧ table_of doc = Some table
    ∧ header_texts table = [NUMERO_SIGN] :: vars_names ++ [py "f"]
    ∧ length (table_rows table) = length rows_data + 1.
Proof.
  pose proof (header_steps vars_names (length rows_data)) as Hheader.
  cbn zeta in Hheader.
  apply bind_Ok in Hheader as (t1 & H1 & Hheader).
  apply bind_Ok in Hheader as (t2 & H2 & H3).
  unfold create_docx_table. cbn zeta.
  rewrite H1, bind_Ok_l, H2, bind_Ok_l, H3, bind_Ok_l.
  intros Hrest. apply bind_Ok in Hrest as (t4 & Hdata & Hsave).
  apply bind_Ok in Hsave as (w1 & Hsave & [= <-]).
  apply data_loop_keeps_header in Hdata as [Hlen Hhead].
  cbn [table_rows lookup list_lookup length] in Hlen, Hhead.
  unfold save in Hsave. destruct (writable w output_file); [|done].
  injection Hsave as <-.
  eexists _, _. split; [reflexivity|].
  split; [cbn [caption_of]; by rewrite paragraph_text_single|].
  split; [reflexivity|]. split.
  - unfold header_texts. cbn [table_rows]. rewrite Hhead.
    apply (header_texts_header_row vars_names [] []).
  - cbn [table_rows]. rewrite Hlen, length_replicate. lia.
Qed.

(** * The input loop and [main] *)

Section MainProperties.
Variable unicode_word : N → bool.
Context {engine : Engine}.

(** A line whose parse fails is answered with a message and the next
    prompt; nothing else happens. *)
Lemma input_loop_rejected line rest w err :
  parse_boolean_expression unicode_word (strip line) = Raise err →
  ∃ message,
    input_loop unicode_word (line :: rest) w
    = input_loop unicode_word rest (print (write w prompt) message).
Proof.
  intros Hparse. cbn [input_loop]. case_bool_decide as Hempty.
  - by eexists.
  - rewrite Hparse. unfold is_ValueError.
    rewrite (parse_boolean_expression_Raise _ _ _ Hparse). by eexists.
Qed.

Lemma input_loop_Ok lines w w1 user_input parsed :
  input_loop unicode_word lines w = (w1, Ok (user_input, parsed)) →
  ∃ turned_down line rest,
    lines = turned_down ++ line :: rest
    ∧ Forall (rejected unicode_word) turned_down
    ∧ user_input = strip line
    ∧ parse_boolean_expression unicode_word (strip line) = Ok parsed
    ∧ files w1 = files w ∧ writable w1 = writable w.
Proof.
  revert w. induction lines as [|line lines IH]; intros w; [done|].
  cbn [input_loop]. case_bool_decide as Hempty.
  - intros Hloop. apply IH in Hloop
      as (turned_down & line' & rest & -> & Hall & ? & ? & Hfiles & Hwr).
    exists (line :: turned_down), line', rest. repeat split; try done.
    constructor; [|done]. exists (Exn ValueError msg_empty).
    unfold parse_boolean_expression. rewrite Hempty. done.
  - destruct (parse_boolean_expression unicode_word (strip line))
      as [parsed'|err] eqn:Hparse.
    + intros [= <- <- <-]. exists [], line, lines. repeat split; try done.
    + destruct (is_ValueError err); [|done].
      intros Hloop. apply IH in Hloop
        as (turned_down & line' & rest & -> & Hall & ? & ? & Hfiles & Hwr).
      exists (line :: turned_down), line', rest. repeat split; try done.
      constructor; [|done]. by exists err.
Qed.

(** A successful run: some lines turned down, then a line that parses, whose
    table is generated and rendered. *)
Lemma main_Ok lines w w' :
  main unicode_word lines w = (w', Ok ()) →
  ∃ turned_down line rest e variables vars_names rows_data w1,
    lines = turned_down ++ line :: rest
    ∧ Forall (rejected unicode_word) turned_down
    ∧ parse_boolean_expression unicode_word (strip line) = Ok (e, variables, vars_names)
    ∧ generate_truth_table e variables = Ok rows_data
    ∧ files w1 = files w
    ∧ create_docx_table rows_data vars_names (strip line) default_output w1 = Ok w'.
Proof.
  unfold main.
  destruct (input_loop unicode_word lines w) as [w1 [[user_input parsed]|err]] eqn:Hloop;
    [|done].
  destruct parsed as [[e variables] vars_names].
  apply input_loop_Ok in Hloop
    as (turned_down & line & rest & -> & Hall & -> & Hparse & Hfiles & _).
  destruct (generate_truth_table e variables) as [rows_data|] eqn:Hgen; [|done].
  destruct (create_docx_table _ _ _ _ _) as [w2|] eqn:Hdoc; [|done].
  intros [= <-]. by eexists turned_down, line, rest, e, variables, vars_names, rows_data, w1.
Qed.

End MainProperties.

(** ** [strip] is idempotent *)

Lemma drop_while_snoc {A} (p : A → bool) l c :
  p c = false → drop_while p (l ++ [c]) = drop_while p l ++ [c].
Proof.
  intros Hc. induction l as [|x l IH]; simpl; [by rewrite Hc|].
  by destruct (p x).
Qed.

Lemma rstrip_cons c u : isspace c = false → rstrip (c :: u) = c :: rstrip u.
Proof.
  intros Hc. unfold rstrip.
  rewrite reverse_cons, drop_while_snoc, reverse_app by done. done.
Qed.

Lemma rstrip_rstrip u : rstrip (rstrip u) = rstrip u.
Proof. unfold rstrip. by rewrite reverse_involutive, drop_while_drop_while. Qed.

Lemma lstrip_head u :
  lstrip u = [] ∨ ∃ c u', lstrip u = c :: u' ∧ isspace c = false.
Proof.
  unfold lstrip. induction u as [|x u IH]; simpl; [by left|].
  destruct (isspace x) eqn:Hx; [done|]. right. by exists x, u.
Qed.

Lemma strip_strip s : strip (strip s) = strip s.
Proof.
  unfold strip. destruct (lstrip_head s) as [->|(c & u & -> & Hc)]; [done|].
  rewrite rstrip_cons by done.
  unfold lstrip at 1. cbn [drop_while]. rewrite Hc.
  by rewrite rstrip_cons, rstrip_rstrip.
Qed.

Section Failures.
Variable unicode_word : N → bool.
Context {engine : Engine}.

(** The ways in which the parser fails. *)
Lemma parse_boolean_expression_Raise_inv expr_input err :
  parse_boolean_expression unicode_word expr_input = Raise err →
  (strip expr_input = [] ∧ err = Exn ValueError msg_empty)
  ∨ (strip expr_input ≠ []
     ∧ ∃ reason, err = Exn ValueError (msg_invalid (strip expr_input) reason)
         ∧ ((extract_variables unicode_word (substitute_symbols (strip expr_input)) = []
             ∧ reason = msg_no_variables)
            ∨ ∃ cause,
                sympify (substitute_symbols (strip expr_input))
                  (var_dict_of (symbols (extract_variables unicode_word
                                           (substitute_symbols (strip expr_input)))))
                = Raise cause
                ∧ reason = exn_msg cause)).
Proof.
  unfold parse_boolean_expression.
  case_bool_decide as Hempty; [intros [= <-]; by left|].
  intros Hparse. right. split; [done|]. revert Hparse. unfold try_except.
  case_bool_decide as Hvars.
  - intros [= <-]. eexists. split; [done|]. by left.
  - destruct (sympify _ _) as [e|cause] eqn:Hs; simpl; [done|].
    intros [= <-]. eexists. split; [done|]. right. by exists cause.
Qed.

(** When every line is turned down the run ends at the end of the input,
    and no file has been written. *)
Lemma main_all_rejected lines w :
  Forall (rejected unicode_word) lines →
  ∃ w', main unicode_word lines w = (w', Raise eof_error) ∧ files w' = files w.
Proof.
  revert w. induction lines as [|line lines IH]; intros w Hall.
  - by eexists.
  - apply Forall_cons in Hall as [[err Herr] Hall].
    destruct (input_loop_rejected unicode_word line lines w err Herr) as [message Hloop].
    destruct (IH (print (write w prompt) message) Hall) as (w' & Hmain & Hfiles).
    exists w'. split; [|done].
    unfold main in *. by rewrite Hloop.
Qed.

End Failures.

Lemma contains_b_unfold t s :
  contains_b t s
  = bool_decide (t `prefix_of` s)
    || match s with [] => false | _ :: s' => contains_b t s' end.
Proof. by destruct s. Qed.

Lemma contains_b_complete t s : contains t s → contains_b t s = true.
Proof.
  intros (a & b & ->). induction a as [|x a IH]; rewrite contains_b_unfold.
  - rewrite bool_decide_eq_true_2; [done|]. by exists b.
  - cbn [app]. rewrite IH. apply orb_true_r.
Qed.

(** * The claims about a run *)

(** C7 (as stated, refuted): the user enters [A] followed by a blank; the
    run succeeds and the caption reads "Boolean function: A", in which the
    text as entered, with its blank, does not occur. *)
Lemma caption_drops_trailing_blank :
  (main ascii_only (engine := Boolean.engine) [py "A "] fresh_world).2 = Ok ()
  ∧ files (main ascii_only (engine := Boolean.engine) [py "A "] fresh_world).1
      !! default_output ≫= caption_of
    = Some (py "Boolean function: A")
  ∧ ¬ contains (py "A ") (py "Boolean function: A").
Proof.
  split; [vm_compute; reflexivity|]. split; [vm_compute; reflexivity|].
  intros Hin. apply contains_b_complete in Hin. vm_compute in Hin. discriminate.
Qed.

(** C7 (amended): for every successful run, the caption paragraph written
    above the table is "Boolean function: " followed by the original,
    untranslated expression text of the line that was accepted, with its
    leading and trailing whitespace removed. *)
Theorem caption_is_stripped_input
    (unicode_word : N → bool) (engine : Engine) (lines : list str) (w w' : World) :
  main unicode_word lines w = (w', Ok ()) →
  ∃ turned_down line rest doc,
    lines = turned_down ++ line :: rest
    ∧ Forall (rejected unicode_word) turned_down
    ∧ accepted unicode_word line
    ∧ files w' !! default_output = Some doc
    ∧ caption_of doc = Some (caption_prefix ++ strip line).
Proof.
  intros Hmain.
  apply main_Ok in Hmain
    as (turned_down & line & rest & e & variables & vars_names & rows_data & w1
        & -> & Hall & Hparse & _ & _ & Hdoc).
  apply create_docx_table_Ok in Hdoc as (doc & table & Hfiles & Hcaption & _).
  exists turned_down, line, rest, doc. repeat split; try done.
  - by eexists.
  - rewrite Hfiles. apply lookup_insert_eq.
Qed.

(** A run on NOT A + B entered with a trailing blank. *)
Lemma caption_is_stripped_input_witness :
  ∃ doc,
    files (main ascii_only (engine := Boolean.engine)
             [NOT_SIGN :: py "A+B "] fresh_world).1 !! default_output
    = Some doc
    ∧ caption_of doc = Some (caption_prefix ++ NOT_SIGN :: py "A+B").
Proof.
  destruct (caption_is_stripped_input ascii_only Boolean.engine
              [NOT_SIGN :: py "A+B "] fresh_world
              (main ascii_only (engine := Boolean.engine)
                 [NOT_SIGN :: py "A+B "] fresh_world).1)
    as (turned_down & line & rest & doc & Hlines & _ & _ & Hdoc & Hcaption).
  - vm_compute. reflexivity.
  - exists doc. split; [exact Hdoc|].
    destruct turned_down as [|l0 turned_down].
    + injection Hlines as <- _. rewrite Hcaption. vm_compute. reflexivity.
    + injection Hlines as _ Hnil. destruct turned_down; discriminate Hnil.
Defined.

(** C8: for every successful run with N variables, the header row of the
    table in the output document reads the index label, the N variable
    names in order and [f], and the table has [2^N + 1] rows. *)
Theorem rendered_table_shape
    (unicode_word : N → bool) (engine : Engine) (lines : list str) (w w' : World) :
  main unicode_word lines w = (w', Ok ()) →
  ∃ line e variables vars_names doc table,
    line ∈ lines
    ∧ parse_boolean_expression unicode_word (strip line) = Ok (e, variables, vars_names)
    ∧ files w' !! default_output = Some doc
    ∧ table_of doc = Some table
    ∧ header_texts table = [NUMERO_SIGN] :: vars_names ++ [py "f"]
    ∧ length (table_rows table) = 2 ^ length vars_names + 1.
Proof.
  intros Hmain.
  apply main_Ok in Hmain
    as (turned_down & line & rest & e & variables & vars_names & rows_data & w1
        & -> & _ & Hparse & Hgen & _ & Hdoc).
  apply create_docx_table_Ok in Hdoc
    as (doc & table & Hfiles & _ & Htable & Hheader & Hlen).
  exists line, e, variables, vars_names, doc, table.
  split; [set_solver|]. split; [done|].
  split; [rewrite Hfiles; apply lookup_insert_eq|].
  split; [done|]. split; [done|].
  apply generate_truth_table_rows in Hgen as [Hrows _].
  apply parse_boolean_expression_Ok in Hparse as (_ & _ & _ & -> & _).
  unfold symbols in Hrows. rewrite length_fmap in Hrows. lia.
Qed.

(** The table written for the input [A*B]. *)
Lemma rendered_table_shape_witness :
  ∃ doc table,
    files (main ascii_only (engine := Boolean.engine) [py "A*B"] fresh_world).1
      !! default_output = Some doc
    ∧ table_of doc = Some table
    ∧ header_texts table = [[NUMERO_SIGN]; py "A"; py "B"; py "f"]
    ∧ length (table_rows table) = 5.
Proof.
  destruct (rendered_table_shape ascii_only Boolean.engine [py "A*B"] fresh_world
              (main ascii_only (engine := Boolean.engine) [py "A*B"] fresh_world).1)
    as (line & e & variables & vars_names & doc & table
        & Hline & Hparse & Hdoc & Htable & Hheader & Hlen).
  - vm_compute. reflexivity.
  - apply list_elem_of_singleton in Hline as ->.
    vm_compute in Hparse. injection Hparse as _ _ <-.
    exists doc, table.
    split; [exact Hdoc|]. split; [exact Htable|]. split; [exact Hheader | exact Hlen].
Defined.

(** C9: a line on which [parse_boolean_expression] fails, unbalanced
    parentheses for one, makes it raise [ValueError], with the
    invalid-expression message unless the line is blank; the run prints a
    message and asks again, and it neither renders nor writes anything for
    that line. *)
Theorem parse_failure_writes_nothing
    (unicode_word : N → bool) (engine : Engine)
    (line : str) (rest : list str) (w : World) (err : exn) :
  parse_boolean_expression unicode_word (strip line) = Raise err →
  exn_kind_of err = ValueError
  ∧ (strip line ≠ [] →
     ∃ reason, err = Exn ValueError (msg_invalid (strip line) reason))
  ∧ ∃ message,
      input_loop unicode_word (line :: rest) w
      = input_loop unicode_word rest (print (write w prompt) message)
      ∧ main unicode_word (line :: rest) w
        = main unicode_word rest (print (write w prompt) message)
      ∧ files (print (write w prompt) message) = files w
      ∧ (Forall (rejected unicode_word) rest →
         ∃ w', main unicode_word (line :: rest) w = (w', Raise eof_error)
               ∧ files w' = files w).
Proof.
  intros Hparse. split; [by eapply parse_boolean_expression_Raise|]. split.
  - intros Hne.
    apply parse_boolean_expression_Raise_inv in Hparse
      as [[Hempty _]|(_ & reason & -> & _)].
    + by rewrite strip_strip in Hempty.
    + exists reason. by rewrite strip_strip.
  - destruct (input_loop_rejected unicode_word line rest w err Hparse)
      as [message Hloop].
    exists message. split; [done|]. split; [|split; [done|]].
    + unfold main. by rewrite Hloop.
    + intros Hrest. apply main_all_rejected. constructor; [by exists err|done].
Qed.

(** A run on the unbalanced input [(A]. *)
Lemma parse_failure_writes_nothing_witness :
  ∃ message,
    main ascii_only (engine := Boolean.engine) [py "(A"] fresh_world
    = main ascii_only (engine := Boolean.engine) []
        (print (write fresh_world prompt) message)
    ∧ files (print (write fresh_world prompt) message) = files fresh_world.
Proof.
  destruct (parse_failure_writes_nothing ascii_only Boolean.engine
              (py "(A") [] fresh_world
              (Exn ValueError
                 (msg_invalid (py "(A") (py "could not parse the expression"))))
    as (_ & _ & message & _ & Hmain & Hfiles & _).
  - vm_compute. reflexivity.
  - exists message. split; [exact Hmain | exact Hfiles].
Defined.

(** C6 (as stated, refuted): on the input [()], whose variable extraction
    is empty, the parser does not fail with the no-variables error as such:
    the handler around the check turns it into the invalid-expression error,
    and that is the message the user is shown before the next prompt. *)
Lemma no_variables_error_is_wrapped :
  extract_variables ascii_only (substitute_symbols (strip (py "()"))) = []
  ∧ parse_boolean_expression (engine := Boolean.engine) ascii_only (py "()")
    = Raise (Exn ValueError (msg_invalid (py "()") msg_no_variables))
  ∧ parse_boolean_expression (engine := Boolean.engine) ascii_only (py "()")
    ≠ Raise (Exn ValueError msg_no_variables)
  ∧ stdout (main ascii_only (engine := Boolean.engine) [py "()"] fresh_world).1
    = [prompt;
       msg_retry (msg_invalid (py "()") msg_no_variables) ++ [NEWLINE];
       prompt].
Proof.
  split; [vm_compute; reflexivity|]. split; [vm_compute; reflexivity|].
  split; [vm_compute; discriminate|]. vm_compute. reflexivity.
Qed.

(** C6 (amended): for every input string that is not blank and whose
    variable extraction yields an empty set, translation fails with a
    [ValueError] that carries the no-variables reason inside the
    invalid-expression message; the run shows that message to the user and
    asks again. *)
Theorem no_variables_failure
    (unicode_word : N → bool) (engine : Engine) (expr_input : str) :
  strip expr_input ≠ [] →
  extract_variables unicode_word (substitute_symbols (strip expr_input)) = [] →
  parse_boolean_expression unicode_word expr_input
  = Raise (Exn ValueError (msg_invalid (strip expr_input) msg_no_variables))
  ∧ ∀ rest w,
      main unicode_word (expr_input :: rest) w
      = main unicode_word rest
          (print (write w prompt)
             (msg_retry (msg_invalid (strip expr_input) msg_no_variables))).
Proof.
  intros Hne Hvars.
  assert (∀ s, strip s = strip expr_input →
            parse_boolean_expression unicode_word s
            = Raise (Exn ValueError (msg_invalid (strip expr_input) msg_no_variables)))
    as Hparse.
  { intros s Hs. unfold parse_boolean_expression. rewrite Hs.
    rewrite bool_decide_eq_false_2 by done. unfold try_except.
    by rewrite Hvars, bool_decide_eq_true_2 by done. }
  split; [by apply Hparse|].
  intros rest w. unfold main. cbn [input_loop].
  rewrite bool_decide_eq_false_2 by done.
  rewrite (Hparse (strip expr_input)) by apply strip_strip.
  done.
Qed.

(** The input [~()] between blanks. *)
Lemma no_variables_failure_witness :
  parse_boolean_expression (engine := Boolean.engine) ascii_only (py " ~() ")
  = Raise (Exn ValueError (msg_invalid (py "~()") msg_no_variables)).
Proof.
  destruct (no_variables_failure ascii_only Boolean.engine (py " ~() ")) as [Hparse _].
  - vm_compute. discriminate.
  - vm_compute. reflexivity.
  - rewrite Hparse. vm_compute. reflexivity.
Defined.

(** * The Boolean engine evaluates what it parses *)

Lemma elem_of_product_bits n values :
  values ∈ product (replicate n [0%Z; 1%Z]) →
  length values = n ∧ Forall (λ v, v = 0%Z ∨ v = 1%Z) values.
Proof.
  intros Hin. apply list_elem_of_lookup_1 in Hin as [i Hi].
  pose proof (lookup_lt_Some _ _ _ Hi) as Hlt. rewrite length_product_bits in Hlt.
  rewrite lookup_product_bits in Hi by done. injection Hi as <-.
  split; [apply length_binary_digits|].
  unfold binary_digits. apply Forall_fmap, Forall_forall. intros k _.
  apply bit_of_range.
Qed.

Lemma foldl_insert_bound (l : list (Symbol * Z)) (d : gmap Symbol Z) x :
  x ∈ l.*1 →
  ∃ v, v ∈ l.*2 ∧ foldl (λ d kv, <[kv.1 := kv.2]> d) d l !! x = Some v.
Proof.
  revert d. induction l as [|[k v] l IH]; intros d Hx; cbn [fmap list_fmap foldl] in *.
  - by apply elem_of_nil in Hx.
  - destruct (decide (x ∈ l.*1)) as [Hin|Hnotin].
    + destruct (IH (<[k:=v]> d) Hin) as (v' & Hv' & Hlookup).
      exists v'. split; [by right|done].
    + apply elem_of_cons in Hx as [->|Hx]; [|done].
      exists v. split; [by left|].
      rewrite foldl_insert_lookup_notin by done. apply lookup_insert_eq.
Qed.

Lemma val_dict_of_bound (variables : list Symbol) (values : list Z) x :
  length values = length variables →
  Forall (λ v, v = 0%Z ∨ v = 1%Z) values →
  x ∈ variables →
  val_dict_of variables values !! x = Some 0%Z
  ∨ val_dict_of variables values !! x = Some 1%Z.
Proof.
  intros Hlen Hbits Hx. unfold val_dict_of.
  destruct (foldl_insert_bound (zip variables values) ∅ x) as (v & Hv & ->).
  { rewrite fst_zip by lia. done. }
  rewrite snd_zip in Hv by lia.
  eapply Forall_forall in Hbits; [|done]. by destruct Hbits as [-> | ->]; [left|right].
Qed.

Lemma var_dict_of_range (variables : list Symbol) (d : gmap str Symbol) name x :
  foldl (λ d v, <[symbol_name v := v]> d) d variables !! name = Some x →
  x ∈ variables ∨ d !! name = Some x.
Proof.
  revert d. induction variables as [|v variables IH]; intros d; simpl; [by right|].
  intros Hlookup. apply IH in Hlookup as [Hin|Hd]; [left; by right|].
  destruct (decide (symbol_name v = name)) as [<-|Hne].
  - rewrite lookup_insert_eq in Hd. injection Hd as <-. left. by left.
  - rewrite lookup_insert_ne in Hd by done. by right.
Qed.

Lemma value_total (d : gmap Symbol Z) (e : Boolean.BExpr) :
  Forall (λ x, d !! x = Some 0%Z ∨ d !! x = Some 1%Z) (Boolean.free_symbols e) →
  ∃ b, Boolean.value d e = Ok b.
Proof.
  induction e as [b|x|e IH|l IHl r IHr|l IHl r IHr]; simpl; intros Hall.
  - by eexists.
  - apply Forall_singleton in Hall as [-> | ->]; by eexists.
  - destruct (IH Hall) as [b ->]. by eexists.
  - apply Forall_app in Hall as [Hl Hr].
    destruct (IHl Hl) as [a ->], (IHr Hr) as [b ->]. by eexists.
  - apply Forall_app in Hall as [Hl Hr].
    destruct (IHl Hl) as [a ->], (IHr Hr) as [b ->]. by eexists.
Qed.

Section ParserLeaves.
Variable locals : gmap str Symbol.

Local Abbreviation bound e :=
  (Forall (λ x, ∃ name, locals !! name = Some x) (Boolean.free_symbols e)).

(** The parser builds its leaves from the values of [locals] only. *)
Lemma parse_free_symbols fuel g ts e ts' :
  Boolean.parse locals fuel g ts = Ok (e, ts') →
  match g with
  | Boolean.GOrRest l | Boolean.GAndRest l => bound l
  | _ => True
  end →
  bound e.
Proof.
  revert g ts e ts'. induction fuel as [|fuel IH]; intros g ts e ts'; [done|].
  destruct g as [|l| |l|]; cbn [Boolean.parse]; intros Hparse Hg.
  - apply bind_Ok in Hparse as ([l ts1] & Hl & Hrest).
    eapply IH; [exact Hrest|]. by eapply IH.
  - destruct ts as [|[] ts0]; try (injection Hparse as <- <-; done).
    apply bind_Ok in Hparse as ([r ts1] & Hr & Hrest).
    eapply IH; [exact Hrest|]. cbn. apply Forall_app. split; [done|].
    by eapply IH.
  - apply bind_Ok in Hparse as ([l ts1] & Hl & Hrest).
    eapply IH; [exact Hrest|]. by eapply IH.
  - destruct ts as [|[] ts0]; try (injection Hparse as <- <-; done).
    apply bind_Ok in Hparse as ([r ts1] & Hr & Hrest).
    eapply IH; [exact Hrest|]. cbn. apply Forall_app. split; [done|].
    by eapply IH.
  - destruct ts as [|[name| | | | |] ts0]; try done.
    + destruct (locals !! name) as [v|] eqn:Hv; [|done].
      injection Hparse as <- <-. cbn. apply Forall_singleton. by exists name.
    + apply bind_Ok in Hparse as ([e0 ts1] & He0 & [= <- <-]).
      cbn. by eapply IH.
    + apply bind_Ok in Hparse as ([e0 ts1] & He0 & Hclose).
      destruct ts1 as [|[] ts1]; try done. injection Hclose as <- <-.
      by eapply IH.
Qed.

End ParserLeaves.

(** On the Boolean engine every accepted input is a valid one: its
    expression evaluates under each enumerated assignment, and the table is
    returned. *)
Lemma boolean_engine_evaluates (unicode_word : N → bool) expr_input e variables vars_names :
  parse_boolean_expression (engine := Boolean.engine) unicode_word expr_input
  = Ok (e, variables, vars_names) →
  evaluates (engine := Boolean.engine) e variables
  ∧ ∃ rows, generate_truth_table (engine := Boolean.engine) e variables = Ok rows
      ∧ length rows = 2 ^ length vars_names.
Proof.
  intros Hparse.
  apply parse_boolean_expression_Ok in Hparse as (_ & _ & _ & Hvars & Hs).
  assert (evaluates (engine := Boolean.engine) e variables) as Heval.
  { intros values Hvalues. apply elem_of_product_bits in Hvalues as [Hlen Hbits].
    cbn [sympify Boolean.engine] in Hs. unfold Boolean.b_sympify in Hs.
    apply bind_Ok in Hs as (ts & _ & Hs).
    apply bind_Ok in Hs as ([e0 ts'] & Hp & Hend).
    destruct (bool_decide (ts' = [])); [|done]. injection Hend as ->.
    apply parse_free_symbols in Hp; [|done].
    destruct (value_total (val_dict_of variables values) e) as [b Hb].
    { eapply Forall_impl; [exact Hp|]. intros x [name Hx]. simpl in Hx.
      apply val_dict_of_bound; [done..|].
      apply var_dict_of_range in Hx as [Hx|Hx]; [done|].
      by rewrite lookup_empty in Hx. }
    exists (Boolean.BConst b), b. cbn. unfold Boolean.b_subs. by rewrite Hb. }
  split; [done|].
  destruct (generate_truth_table_total e variables Heval) as [rows Hrows].
  exists rows. split; [done|].
  apply generate_truth_table_rows in Hrows as [-> _].
  rewrite Hvars. unfold symbols. by rewrite length_fmap.
Qed.

(** * Further properties of the renderer *)

Lemma for_each_app {A S} (l1 l2 : list A) (body : S → A → result S) s :
  for_each (l1 ++ l2) body s = for_each l1 body s ≫= for_each l2 body.
Proof.
  revert s. induction l1 as [|x l1 IH]; intros s; [done|].
  cbn [app for_each]. destruct (body s x) as [s'|e]; [|done].
  rewrite !bind_Ok_l. apply IH.
Qed.

Lemma insert_middle {A} (l1 l2 : list A) x y :
  <[length l1 := y]> (l1 ++ x :: l2) = l1 ++ y :: l2.
Proof. rewrite insert_app_r_alt, Nat.sub_diag by lia. done. Qed.

(** The inner loop over the values of one row fills the cells of table row
    [r] from column [k] on, left to right. *)
Lemma fill_row_loop vals k r pre olds post rows_before rows_after t :
  table_rows t = rows_before ++ (pre ++ olds ++ post) :: rows_after →
  length rows_before = r → length pre = k → length olds = length vals →
  for_each (imap (λ j val, (k + j, val)) vals)
    (λ table '(j, val), set_table_cell table r j val) t
  = Ok {| table_rows :=
            rows_before ++ (pre ++ zip_with set_cell_center olds vals ++ post)
            :: rows_after;
          table_borders := table_borders t |}.
Proof.
  revert k pre olds t.
  induction vals as [|val vals IH]; intros k pre olds t Hrows Hr Hk Holds.
  - destruct olds; [|done]. simpl in *. rewrite <- Hrows. by destruct t.
  - destruct olds as [|old olds]; [done|].
    cbn [imap for_each zip_with app] in *.
    set (t1 := {| table_rows :=
                    rows_before
                    ++ ((pre ++ [set_cell_center old val]) ++ olds ++ post)
                    :: rows_after;
                  table_borders := table_borders t |}).
    assert (set_table_cell t r (k + 0) val = Ok t1) as ->.
    { apply set_table_cell_Ok. eexists _, old.
      split; [rewrite Hrows; by apply list_lookup_middle|].
      replace (k + 0) with (length pre) by lia.
      split; [by apply list_lookup_middle|].
      unfold t1. rewrite Hrows, <- Hr. f_equal.
      rewrite insert_middle, insert_middle. by rewrite <- app_assoc. }
    rewrite bind_Ok_l.
    erewrite imap_ext;
      [rewrite (IH (S k) (pre ++ [set_cell_center old val]) olds t1)|].
    + cbn [t1 table_borders]. by rewrite <- !app_assoc.
    + done.
    + done.
    + rewrite length_app. simpl. lia.
    + simpl in Holds. lia.
    + intros j x _. simpl. f_equal. lia.
Qed.

Lemma zip_with_set_cell_center_replicate (vals : list str) :
  zip_with set_cell_center (replicate (length vals) empty_cell) vals
  = set_cell_center empty_cell <$> vals.
Proof. induction vals as [|val vals IH]; simpl; [done|]. by rewrite IH. Qed.

(** One round of the outer loop on a fresh row that is wide enough. *)
Lemma fill_fresh_row vals cols r rows_before rows_after t :
  table_rows t = rows_before ++ replicate cols empty_cell :: rows_after →
  length rows_before = r → length vals ≤ cols →
  for_each (enumerate vals) (λ table '(j, val), set_table_cell table r j val) t
  = Ok {| table_rows := rows_before ++ render_row cols vals :: rows_after;
          table_borders := table_borders t |}.
Proof.
  intros Hrows Hr Hlen.
  replace cols with (length vals + (cols - length vals)) in Hrows by lia.
  rewrite replicate_add in Hrows.
  pose proof (fill_row_loop vals 0 r [] (replicate (length vals) empty_cell)
                (replicate (cols - length vals) empty_cell)
                rows_before rows_after t Hrows Hr eq_refl) as Hfill.
  rewrite length_replicate in Hfill. specialize (Hfill eq_refl).
  rewrite zip_with_set_cell_center_replicate in Hfill.
  exact Hfill.
Qed.

Lemma set_table_cell_overflow t r c text row :
  table_rows t !! r = Some row → length row ≤ c →
  set_table_cell t r c text = Raise index_error.
Proof.
  intros Hrow Hc. unfold set_table_cell. rewrite Hrow.
  by rewrite lookup_ge_None_2.
Qed.

(** A row with more values than the table has columns overflows. *)
Lemma fill_fresh_row_overflow vals cols r rows_before rows_after t :
  table_rows t = rows_before ++ replicate cols empty_cell :: rows_after →
  length rows_before = r → cols < length vals →
  for_each (enumerate vals) (λ table '(j, val), set_table_cell table r j val) t
  = Raise index_error.
Proof.
  intros Hrows Hr Hlen. unfold enumerate.
  rewrite <- (take_drop cols vals), imap_app, for_each_app.
  assert (length (take cols vals) = cols) as Htake by (rewrite length_take; lia).
  pose proof (fill_fresh_row (take cols vals) cols r rows_before rows_after t
                Hrows Hr) as Hfill.
  unfold enumerate in Hfill. rewrite Hfill by lia. rewrite bind_Ok_l.
  destruct (drop cols vals) as [|val rest] eqn:Hdrop.
  { apply (f_equal length) in Hdrop. rewrite length_drop in Hdrop. simpl in Hdrop. lia. }
  cbn [imap for_each compose].
  rewrite (set_table_cell_overflow _ _ _ _ (render_row cols (take cols vals))); [done| |].
  - by apply list_lookup_middle.
  - unfold render_row. rewrite length_app, length_fmap, length_replicate. lia.
Qed.

(** The outer loop fills one fresh row per row of data, top to bottom. *)
Lemma data_loop_fill rows_data cols k header filled rows_after borders :
  Forall (λ row, length row ≤ cols) rows_data → length filled = k →
  for_each (imap (λ i row, (k + i, row)) rows_data)
    (λ table '(i, row),
       for_each (enumerate row)
         (λ table '(j, val), set_table_cell table (i + 1) j val) table)
    {| table_rows :=
         header :: filled
         ++ replicate (length rows_data) (replicate cols empty_cell) ++ rows_after;
       table_borders := borders |}
  = Ok {| table_rows :=
            header :: filled ++ (render_row cols <$> rows_data) ++ rows_after;
          table_borders := borders |}.
Proof.
  revert k filled.
  induction rows_data as [|row rows_data IH]; intros k filled Hfit Hk; [done|].
  apply Forall_cons in Hfit as [Hrow Hfit].
  cbn [imap for_each length replicate app fmap list_fmap].
  pose proof (fill_fresh_row row cols (k + 0 + 1) (header :: filled)
                (replicate (length rows_data) (replicate cols empty_cell) ++ rows_after)
                {| table_rows :=
                     header :: filled ++ replicate cols empty_cell
                     :: replicate (length rows_data) (replicate cols empty_cell)
                        ++ rows_after;
                   table_borders := borders |}
                eq_refl ltac:(simpl; lia) Hrow) as Hstep.
  rewrite Hstep, bind_Ok_l. cbn [table_borders].
  replace ((header :: filled) ++ render_row cols row
           :: replicate (length rows_data) (replicate cols empty_cell) ++ rows_after)
    with (header :: (filled ++ [render_row cols row])
          ++ replicate (length rows_data) (replicate cols empty_cell) ++ rows_after)
    by (cbn [app]; by rewrite <- app_assoc).
  erewrite imap_ext; [rewrite (IH (S k) (filled ++ [render_row cols row]))|].
  - by rewrite <- app_assoc.
  - done.
  - rewrite length_app. simpl. lia.
  - intros i x _. simpl. f_equal. lia.
Qed.

(** The first row that is too long stops the loop with an [IndexError]. *)
Lemma data_loop_overflow fitting long rest cols header borders :
  Forall (λ row, length row ≤ cols) fitting → cols < length long →
  for_each (enumerate (fitting ++ long :: rest))
    (λ table '(i, row),
       for_each (enumerate row)
         (λ table '(j, val), set_table_cell table (i + 1) j val) table)
    {| table_rows :=
         header :: replicate (length (fitting ++ long :: rest))
                     (replicate cols empty_cell);
       table_borders := borders |}
  = Raise index_error.
Proof.
  intros Hfit Hlong. unfold enumerate at 1.
  rewrite imap_app, for_each_app, length_app, replicate_add.
  pose proof (data_loop_fill fitting cols 0 header []
                (replicate (length (long :: rest)) (replicate cols empty_cell))
                borders Hfit eq_refl) as Hfill.
  cbn [app] in Hfill.
  change (imap (λ i row, (0 + i, row)) fitting) with (imap pair fitting) in Hfill.
  rewrite Hfill, bind_Ok_l. cbn [imap for_each length replicate compose].
  rewrite (fill_fresh_row_overflow long cols (length fitting + 0 + 1)
             (header :: (render_row cols <$> fitting))
             (replicate (length rest) (replicate cols empty_cell)));
    [done|done| |done].
  simpl. rewrite length_fmap. lia.
Qed.

(** The renderer on rows that fit: it saves the expected document and
    prints the confirmation. *)
Lemma create_docx_table_fits rows_data vars_names user_expression output_file w :
  Forall (λ row, length row ≤ length vars_names + 2) rows_data →
  create_docx_table rows_data vars_names user_expression output_file w
  = w1 ← save (rendered_document rows_data vars_names user_expression) output_file w;
    Ok (print w1 (py "Truth table saved to " ++ output_file)).
Proof.
  intros Hfit.
  pose proof (header_steps vars_names (length rows_data)) as Hheader.
  cbn zeta in Hheader.
  apply bind_Ok in Hheader as (t1 & H1 & Hheader).
  apply bind_Ok in Hheader as (t2 & H2 & H3).
  unfold create_docx_table. cbn zeta.
  rewrite H1, bind_Ok_l, H2, bind_Ok_l, H3, bind_Ok_l.
  pose proof (data_loop_fill rows_data (length vars_names + 2) 0
                (header_row vars_names) [] [] [] Hfit eq_refl) as Hfill.
  cbn [app] in Hfill. rewrite !app_nil_r in Hfill.
  change (imap (λ i row, (0 + i, row)) rows_data) with (enumerate rows_data) in Hfill.
  rewrite Hfill, bind_Ok_l. done.
Qed.

Lemma create_docx_table_overflow
    fitting long rest vars_names user_expression output_file w :
  Forall (λ row, length row ≤ length vars_names + 2) fitting →
  length vars_names + 2 < length long →
  create_docx_table (fitting ++ long :: rest) vars_names user_expression output_file w
  = Raise index_error.
Proof.
  intros Hfit Hlong.
  pose proof (header_steps vars_names (length (fitting ++ long :: rest))) as Hheader.
  cbn zeta in Hheader.
  apply bind_Ok in Hheader as (t1 & H1 & Hheader).
  apply bind_Ok in Hheader as (t2 & H2 & H3).
  unfold create_docx_table. cbn zeta.
  rewrite H1, bind_Ok_l, H2, bind_Ok_l, H3, bind_Ok_l.
  by rewrite data_loop_overflow.
Qed.

(** Among rows one of which is too long there is a first such. *)
Lemma first_long_row cols (rows_data : list (list str)) :
  ¬ Forall (λ row, length row ≤ cols) rows_data →
  ∃ fitting long rest,
    rows_data = fitting ++ long :: rest
    ∧ Forall (λ row, length row ≤ cols) fitting ∧ cols < length long.
Proof.
  induction rows_data as [|row rows_data IH]; intros Hnot.
  - destruct Hnot. constructor.
  - destruct (decide (length row ≤ cols)) as [Hrow|Hrow].
    + destruct IH as (fitting & long & rest & -> & Hfit & Hlong).
      { intros Hall. apply Hnot. by constructor. }
      exists (row :: fitting), long, rest. split; [done|]. split; [by constructor|done].
    + exists [], row, rows_data. split; [done|]. split; [constructor|lia].
Qed.

Lemma cell_text_render_row cols vals :
  cell_text <$> render_row cols vals = vals ++ replicate (cols - length vals) [].
Proof.
  unfold render_row. rewrite fmap_app, fmap_replicate, <- list_fmap_compose.
  f_equal. rewrite <- (list_fmap_id vals) at 2.
  apply list_fmap_ext. intros _ text _. apply cell_text_set_cell_center.
Qed.

Lemma table_texts_rendered_table rows_data vars_names :
  table_texts (rendered_table rows_data vars_names)
  = ([NUMERO_SIGN] :: vars_names ++ [py "f"])
    :: ((λ row, row ++ replicate (length vars_names + 2 - length row) [])
          <$> rows_data).
Proof.
  unfold table_texts, rendered_table. cbn [table_rows fmap list_fmap]. f_equal.
  - apply (header_texts_header_row vars_names [] []).
  - rewrite <- list_fmap_compose. apply list_fmap_ext. intros _ row _.
    apply cell_text_render_row.
Qed.

Lemma formatted_set_cell_center text : formatted (set_cell_center empty_cell text).
Proof.
  split; [done|]. repeat constructor.
Qed.

Lemma save_Ok doc path w w' :
  save doc path w = Ok w' ↔
  writable w path = true
  ∧ w' = {| stdout := stdout w; files := <[path := doc]> (files w);
            writable := writable w |}.
Proof.
  unfold save. destruct (writable w path); split.
  - by intros [= <-].
  - by intros [_ ->].
  - done.
  - by intros [? _].
Qed.

Lemma print_saved w output_file :
  print w (py "Truth table saved to " ++ output_file)
  = write w (msg_saved output_file).
Proof. unfold print, msg_saved. by rewrite <- app_assoc. Qed.

(** What a successful call leaves behind, in full. *)
Lemma create_docx_table_Ok_inv rows_data vars_names user_expression output_file w w' :
  create_docx_table rows_data vars_names user_expression output_file w = Ok w' →
  Forall (λ row, length row ≤ length vars_names + 2) rows_data
  ∧ writable w output_file = true
  ∧ w' = {| stdout := stdout w ++ [msg_saved output_file];
            files := <[output_file :=
                         rendered_document rows_data vars_names user_expression]>
                       (files w);
            writable := writable w |}.
Proof.
  intros Hcreate.
  destruct (decide (Forall (λ row, length row ≤ length vars_names + 2) rows_data))
    as [Hfit|Hlong].
  - split; [done|]. rewrite create_docx_table_fits in Hcreate by done.
    unfold save in Hcreate. destruct (writable w output_file); [|done].
    rewrite bind_Ok_l, print_saved in Hcreate. split; [done|].
    symmetry. by injection Hcreate.
  - apply first_long_row in Hlong as (fitting & long & rest & -> & Hfit & Hlong).
    by rewrite create_docx_table_overflow in Hcreate.
Qed.





(** X3: in the table a successful call saves, the header row
    reads the index label, the variable names and [f], and data row [i]
    shows the values of row [i] of the data from the left; where a row of
    data is shorter than the table is wide, the cells to its right stay
    empty. *)
Theorem create_docx_table_texts
    (rows_data : list (list str)) (vars_names : list str)
    (user_expression output_file : str) (w w' : World) :
  create_docx_table rows_data vars_names user_expression output_file w = Ok w' →
  ∃ doc table,
    files w' !! output_file = Some doc
    ∧ table_of doc = Some table
    ∧ table_texts table
      = ([NUMERO_SIGN] :: vars_names ++ [py "f"])
        :: ((λ row, row ++ replicate (length vars_names + 2 - length row) [])
              <$> rows_data).
Proof.
  intros Hcreate. apply create_docx_table_Ok_inv in Hcreate as (_ & _ & ->).
  eexists _, _. split; [apply lookup_insert_eq|]. split; [reflexivity|].
  apply table_texts_rendered_table.
Qed.

(** A short second row: its last cell stays empty. *)
Lemma create_docx_table_texts_witness :
  ∃ w' doc table,
    create_docx_table [[py "0"; py "0"; py "1"]; [py "1"; py "1"]]
      [py "A"] (py "A") default_output fresh_world = Ok w'
    ∧ files w' !! default_output = Some doc
    ∧ table_of doc = Some table
    ∧ table_texts table
      = [[[NUMERO_SIGN]; py "A"; py "f"];
         [py "0"; py "0"; py "1"];
         [py "1"; py "1"; []]].
Proof.
  pose proof (create_docx_table_texts [[py "0"; py "0"; py "1"]; [py "1"; py "1"]]
                [py "A"] (py "A") default_output fresh_world) as Htexts.
  destruct (create_docx_table _ _ _ _ _) as [w'|e] eqn:Hcreate;
    [|vm_compute in Hcreate; discriminate Hcreate].
  destruct (Htexts w' eq_refl) as (doc & table & Hdoc & Htable & Ht).
  exists w', doc, table. split; [reflexivity|].
  split; [exact Hdoc|]. split; [exact Htable|].
  rewrite Ht. vm_compute. reflexivity.
Defined.

Lemma Forall_formatted_render_row cols vals :
  length vals = cols → Forall formatted (render_row cols vals).
Proof.
  intros <-. unfold render_row. rewrite Nat.sub_diag, app_nil_r.
  apply Forall_fmap, Forall_forall. intros text _. apply formatted_set_cell_center.
Qed.

(** X4: when every row of data has exactly [N + 2] values, the
    document a successful call saves is uniformly formatted: the caption is
    one centred run in Times New Roman 12, every cell of the table, header
    included, is centred horizontally and vertically (once) in the same
    font, and the table carries the six borders top, left, bottom, right,
    insideH and insideV, each a single line of size 4 in black. *)
Theorem create_docx_table_formatting
    (rows_data : list (list str)) (vars_names : list str)
    (user_expression output_file : str) (w w' : World) :
  create_docx_table rows_data vars_names user_expression output_file w = Ok w' →
  Forall (λ row, length row = length vars_names + 2) rows_data →
  ∃ caption table,
    files w' !! output_file = Some [BlockParagraph caption; BlockTable table]
    ∧ paragraph_alignment caption = Some CENTER
    ∧ (∃ run, paragraph_runs caption = [run]
              ∧ run_font_name run = Some TIMES_NEW_ROMAN
              ∧ run_font_size run = Some 12%Z)
    ∧ Forall (Forall formatted) (table_rows table)
    ∧ border_name <$> table_borders table = border_names
    ∧ Forall (λ b, border_val b = py "single" ∧ border_sz b = py "4"
                   ∧ border_space b = py "0" ∧ border_color b = py "000000")
        (table_borders table).
Proof.
  intros Hcreate Hexact. apply create_docx_table_Ok_inv in Hcreate as (_ & _ & ->).
  eexists _, _. split; [apply lookup_insert_eq|].
  split; [reflexivity|]. split; [by eexists|].
  split; [|split; [reflexivity|repeat constructor]].
  unfold rendered_table. cbn [table_rows]. constructor.
  - unfold header_row. apply Forall_fmap, Forall_forall. intros text _.
    apply formatted_set_cell_center.
  - apply Forall_fmap, Forall_forall. intros row Hrow.
    eapply Forall_forall in Hexact; [|done].
    by apply Forall_formatted_render_row.
Qed.

(** The table of [A] alone. *)
Lemma create_docx_table_formatting_witness :
  ∃ w' caption table,
    create_docx_table [[py "0"; py "0"; py "0"]; [py "1"; py "1"; py "1"]]
      [py "A"] (py "A") default_output fresh_world = Ok w'
    ∧ files w' !! default_output = Some [BlockParagraph caption; BlockTable table]
    ∧ Forall (Forall formatted) (table_rows table).
Proof.
  pose proof (create_docx_table_formatting
                [[py "0"; py "0"; py "0"]; [py "1"; py "1"; py "1"]]
                [py "A"] (py "A") default_output fresh_world) as Hformat.
  destruct (create_docx_table _ _ _ _ _) as [w'|e] eqn:Hcreate;
    [|vm_compute in Hcreate; discriminate Hcreate].
  destruct (Hformat w' eq_refl) as (caption & table & Hdoc & _ & _ & Hcells & _).
  - repeat constructor.
  - exists w', caption, table. split; [reflexivity|]. split; [exact Hdoc | exact Hcells].
Defined.

(** X5: a successful call changes the world in two ways only: the
    document stored under the output path is replaced, whatever was there,
    while every other path keeps its content, and one line, the
    confirmation naming the path, is added to the output. *)
Theorem create_docx_table_effects
    (rows_data : list (list str)) (vars_names : list str)
    (user_expression output_file : str) (w w' : World) :
  create_docx_table rows_data vars_names user_expression output_file w = Ok w' →
  stdout w' = stdout w ++ [msg_saved output_file]
  ∧ files w' !! output_file
    = Some (rendered_document rows_data vars_names user_expression)
  ∧ (∀ path, path ≠ output_file → files w' !! path = files w !! path)
  ∧ writable w' = writable w.
Proof.
  intros Hcreate. apply create_docx_table_Ok_inv in Hcreate as (_ & _ & ->).
  cbn [stdout files writable]. split; [done|].
  split; [apply lookup_insert_eq|]. split; [|done].
  intros path Hpath. by apply lookup_insert_ne.
Qed.

(** A second call on the same path replaces the first document. *)
Lemma create_docx_table_effects_witness :
  ∃ w1 w2,
    create_docx_table [] [py "A"] (py "A") default_output fresh_world = Ok w1
    ∧ create_docx_table [] [py "B"] (py "B") default_output w1 = Ok w2
    ∧ files w2 !! default_output = Some (rendered_document [] [py "B"] (py "B"))
    ∧ stdout w2 = [msg_saved default_output; msg_saved default_output].
Proof.
  destruct (create_docx_table [] [py "A"] (py "A") default_output fresh_world)
    as [w1|e] eqn:H1; [|vm_compute in H1; discriminate H1].
  pose proof (create_docx_table_effects _ _ _ _ _ _ H1) as (Hout1 & _ & _ & Hwr1).
  destruct (create_docx_table [] [py "B"] (py "B") default_output w1)
    as [w2|e] eqn:H2.
  - pose proof (create_docx_table_effects _ _ _ _ _ _ H2) as (Hout2 & Hdoc2 & _).
    exists w1, w2. split; [reflexivity|]. split; [exact H2|].
    split; [exact Hdoc2|]. rewrite Hout2, Hout1. reflexivity.
  - exfalso. rewrite create_docx_table_fits in H2 by constructor.
    unfold save in H2. rewrite Hwr1 in H2. discriminate H2.
Defined.

(** * Further properties of a run *)

Section RunProperties.
Variable unicode_word : N → bool.
Context {engine : Engine}.

Lemma after_rejections_frame lines w :
  stdout (after_rejections unicode_word lines w)
  = stdout w ++ mjoin ((λ line, [prompt; reply unicode_word line]) <$> lines)
  ∧ files (after_rejections unicode_word lines w) = files w
  ∧ writable (after_rejections unicode_word lines w) = writable w.
Proof.
  revert w. induction lines as [|line lines IH]; intros w.
  - simpl. by rewrite app_nil_r.
  - cbn [after_rejections foldl fmap list_fmap mjoin list_join].
    destruct (IH (turn_down unicode_word w line)) as (Hout & Hfiles & Hwr).
    unfold after_rejections in *. rewrite Hout, Hfiles, Hwr.
    unfold turn_down, write. cbn [stdout files writable].
    by rewrite <- !app_assoc.
Qed.

Lemma accepted_not_blank line parsed :
  parse_boolean_expression unicode_word (strip line) = Ok parsed → strip line ≠ [].
Proof.
  destruct parsed as [[e variables] vars_names]. intros Hparse.
  apply parse_boolean_expression_Ok in Hparse as (Hne & _).
  by rewrite strip_strip in Hne.
Qed.

Lemma input_loop_turn_down line rest w :
  rejected unicode_word line →
  input_loop unicode_word (line :: rest) w
  = input_loop unicode_word rest (turn_down unicode_word w line).
Proof.
  intros [err Hparse]. cbn [input_loop]. unfold turn_down, reply, print.
  case_bool_decide as Hblank; [done|].
  rewrite Hparse. unfold is_ValueError.
  by rewrite (parse_boolean_expression_Raise _ _ _ Hparse).
Qed.

Lemma input_loop_skip turned_down rest w :
  Forall (rejected unicode_word) turned_down →
  input_loop unicode_word (turned_down ++ rest) w
  = input_loop unicode_word rest (after_rejections unicode_word turned_down w).
Proof.
  revert w. induction turned_down as [|line turned_down IH]; intros w Hall; [done|].
  apply Forall_cons in Hall as [Hline Hall].
  cbn [app]. rewrite input_loop_turn_down by done. by rewrite IH.
Qed.

Lemma input_loop_accept line rest w parsed :
  parse_boolean_expression unicode_word (strip line) = Ok parsed →
  input_loop unicode_word (line :: rest) w
  = (write w prompt, Ok (strip line, parsed)).
Proof.
  intros Hparse. cbn [input_loop].
  rewrite bool_decide_eq_false_2 by (by eapply accepted_not_blank).
  by rewrite Hparse.
Qed.

Lemma input_loop_frame lines w w1 r :
  input_loop unicode_word lines w = (w1, r) →
  files w1 = files w ∧ writable w1 = writable w.
Proof.
  revert w. induction lines as [|line lines IH]; intros w.
  - by intros [= <- <-].
  - cbn [input_loop]. case_bool_decide as Hblank.
    + intros Hloop. by apply IH in Hloop.
    + destruct (parse_boolean_expression unicode_word (strip line)) as [parsed|err].
      * by intros [= <- <-].
      * destruct (is_ValueError err); [|by intros [= <- <-]].
        intros Hloop. by apply IH in Hloop.
Qed.

(** A run whose first acceptable line is [line]: what happens after the
    input loop. *)
Lemma main_accepting turned_down line rest w e variables vars_names :
  Forall (rejected unicode_word) turned_down →
  parse_boolean_expression unicode_word (strip line) = Ok (e, variables, vars_names) →
  main unicode_word (turned_down ++ line :: rest) w
  = let w1 := write (after_rejections unicode_word turned_down w) prompt in
    match generate_truth_table e variables with
    | Raise err => (w1, Raise err)
    | Ok rows_data =>
        match create_docx_table rows_data vars_names (strip line) default_output w1 with
        | Raise err => (w1, Raise err)
        | Ok w' => (w', Ok ())
        end
    end.
Proof.
  intros Hall Hparse. unfold main.
  rewrite input_loop_skip by done.
  by rewrite (input_loop_accept _ _ _ _ Hparse).
Qed.


End RunProperties.





(** X8: when every line is turned down the run ends with the end-of-input
    error of [input]; it has printed a prompt and a reply for each line and
    one more prompt, and it has written no file. *)
Theorem main_end_of_input
    (unicode_word : N → bool) (engine : Engine) (lines : list str) (w : World) :
  Forall (rejected unicode_word) lines →
  main unicode_word lines w
  = ({| stdout :=
          stdout w
          ++ mjoin ((λ line, [prompt; reply unicode_word line]) <$> lines)
          ++ [prompt];
        files := files w;
        writable := writable w |},
     Raise eof_error).
Proof.
  intros Hall. unfold main.
  rewrite <- (app_nil_r lines) at 1. rewrite input_loop_skip by done.
  cbn [input_loop].
  destruct (after_rejections_frame unicode_word lines w) as (Hout & Hfiles & Hwr).
  unfold write. rewrite Hout, Hfiles, Hwr. by rewrite <- app_assoc.
Qed.

(** A blank line and a line without variables. *)
Lemma main_end_of_input_witness :
  stdout (main ascii_only (engine := Boolean.engine) [py "  "; py "()"] fresh_world).1
  = [prompt; msg_empty_retry ++ [NEWLINE];
     prompt; msg_retry (msg_invalid (py "()") msg_no_variables) ++ [NEWLINE];
     prompt].
Proof.
  rewrite (main_end_of_input ascii_only Boolean.engine [py "  "; py "()"] fresh_world).
  - vm_compute. reflexivity.
  - repeat constructor; eexists; vm_compute; reflexivity.
Defined.

Lemma input_loop_stops (unicode_word : N → bool) {engine : Engine} lines more w :
  Exists (accepted unicode_word) lines →
  input_loop unicode_word (lines ++ more) w = input_loop unicode_word lines w.
Proof.
  revert w. induction lines as [|line lines IH]; intros w Hex.
  - by apply Exists_nil in Hex.
  - cbn [app input_loop].
    destruct (parse_boolean_expression unicode_word (strip line))
      as [parsed|err] eqn:Hparse.
    + rewrite bool_decide_eq_false_2 by (by eapply accepted_not_blank). done.
    + assert (Exists (accepted unicode_word) lines) as Htail.
      { apply Exists_cons in Hex as [[parsed Hp]|Hex]; [congruence|done]. }
      case_bool_decide; [by apply IH|].
      destruct (is_ValueError err); [by apply IH|done].
Qed.

(** X9: the run stops reading at the first line it accepts: whatever is
    typed after it is never consumed and changes nothing. *)
Theorem main_ignores_later_lines
    (unicode_word : N → bool) (engine : Engine)
    (lines more : list str) (w : World) :
  Exists (accepted unicode_word) lines →
  main unicode_word (lines ++ more) w = main unicode_word lines w.
Proof. intros Hex. unfold main. by rewrite input_loop_stops. Qed.

(** After [A*B] nothing is read. *)
Lemma main_ignores_later_lines_witness :
  main ascii_only (engine := Boolean.engine) ([py "A*B"] ++ [py "A+B"; py "("]) fresh_world
  = main ascii_only (engine := Boolean.engine) [py "A*B"] fresh_world.
Proof.
  apply main_ignores_later_lines.
  apply Exists_cons_hd. eexists. vm_compute. reflexivity.
Defined.

(** X10: a failure while the table is generated is not handled by the
    retry loop: the run ends with that exception right after the prompt of
    the accepted line, no later line is tried, and no file is written. *)
Theorem main_evaluation_failure
    (unicode_word : N → bool) (engine : Engine)
    (turned_down : list str) (line : str) (rest : list str) (w : World)
    (e : Expr) (variables : list Symbol) (vars_names : list str) (err : exn) :
  Forall (rejected unicode_word) turned_down →
  parse_boolean_expression unicode_word (strip line) = Ok (e, variables, vars_names) →
  generate_truth_table e variables = Raise err →
  main unicode_word (turned_down ++ line :: rest) w
  = ({| stdout :=
          stdout w
          ++ mjoin ((λ line, [prompt; reply unicode_word line]) <$> turned_down)
          ++ [prompt];
        files := files w;
        writable := writable w |},
     Raise err).
Proof.
  intros Hall Hparse Hgen.
  rewrite (main_accepting _ _ _ _ _ _ _ _ Hall Hparse). cbn zeta. rewrite Hgen.
  destruct (after_rejections_frame unicode_word turned_down w) as (Hout & Hfiles & Hwr).
  unfold write. rewrite Hout, Hfiles, Hwr. by rewrite <- app_assoc.
Qed.

(** An expression that cannot be evaluated when [A] is 1, followed by a
    line that would have been fine. *)
Lemma main_evaluation_failure_witness :
  main ascii_only (engine := partial_engine) [py "A"; py "B"] fresh_world
  = ({| stdout := [prompt]; files := ∅; writable := λ _, true |},
     Raise evaluation_error).
Proof.
  apply (main_evaluation_failure ascii_only partial_engine [] (py "A") [py "B"]
           fresh_world () [sym_A] [py "A"] evaluation_error).
  - constructor.
  - vm_compute. reflexivity.
  - vm_compute. reflexivity.
Defined.

(** X11: whatever the outcome of a run, the only path whose content can
    differ afterwards is the default output path, and a run that does not
    end normally has written nothing at all. *)
Theorem main_touches_only_output
    (unicode_word : N → bool) (engine : Engine)
    (lines : list str) (w w' : World) (r : result ()) :
  main unicode_word lines w = (w', r) →
  (∀ path, path ≠ default_output → files w' !! path = files w !! path)
  ∧ (r ≠ Ok () → files w' = files w)
  ∧ writable w' = writable w.
Proof.
  unfold main.
  destruct (input_loop unicode_word lines w) as [w1 r1] eqn:Hloop.
  apply input_loop_frame in Hloop as [Hfiles Hwr].
  destruct r1 as [[user_input [[e variables] vars_names]]|err].
  - destruct (generate_truth_table e variables) as [rows_data|err].
    + destruct (create_docx_table _ _ _ _ _) as [w2|err] eqn:Hdoc.
      * intros [= <- <-]. apply create_docx_table_Ok_inv in Hdoc as (_ & _ & ->).
        cbn [files writable]. split; [|split; [done|done]].
        intros path Hpath. by rewrite lookup_insert_ne, Hfiles.
      * intros [= <- <-]. by rewrite Hfiles.
    + intros [= <- <-]. by rewrite Hfiles.
  - intros [= <- <-]. by rewrite Hfiles.
Qed.

(** A run on a world that already holds another file. *)
Lemma main_touches_only_output_witness :
  files (main ascii_only (engine := Boolean.engine) [py "A"]
           {| stdout := []; files := {[ py "notes.txt" := [] ]};
              writable := λ _, true |}).1 !! py "notes.txt"
  = Some [].
Proof.
  destruct (main_touches_only_output ascii_only Boolean.engine [py "A"]
              {| stdout := []; files := {[ py "notes.txt" := [] ]};
                 writable := λ _, true |}
              (main ascii_only (engine := Boolean.engine) [py "A"]
                 {| stdout := []; files := {[ py "notes.txt" := [] ]};
                    writable := λ _, true |}).1
              (Ok ()))
    as (Hother & _ & _).
  - vm_compute. reflexivity.
  - rewrite Hother; [vm_compute; reflexivity|]. vm_compute. discriminate.
Defined.

(** * Further properties of the translator *)

Lemma drop_while_nil_iff {A} (p : A → bool) l :
  drop_while p l = [] ↔ Forall (λ x, p x = true) l.
Proof.
  induction l as [|x l IH]; simpl; [by split; [constructor|]|].
  destruct (p x) eqn:Hx.
  - rewrite IH. split; [by constructor|]. by intros [_ ?]%Forall_cons.
  - split; [done|]. intros [? _]%Forall_cons. congruence.
Qed.

Lemma drop_while_app_Forall {A} (p : A → bool) l1 l2 :
  Forall (λ x, p x = true) l1 → drop_while p (l1 ++ l2) = drop_while p l2.
Proof.
  induction l1 as [|x l1 IH]; [done|]. intros [Hx Hl1]%Forall_cons.
  simpl. rewrite Hx. by apply IH.
Qed.

Lemma drop_while_app_nonempty {A} (p : A → bool) l1 l2 :
  drop_while p l1 ≠ [] → drop_while p (l1 ++ l2) = drop_while p l1 ++ l2.
Proof.
  induction l1 as [|x l1 IH]; [done|]. simpl.
  destruct (p x); [apply IH|done].
Qed.

Lemma rstrip_app_space u post :
  Forall (λ c, isspace c = true) post → rstrip (u ++ post) = rstrip u.
Proof.
  intros Hpost. unfold rstrip. rewrite reverse_app.
  rewrite drop_while_app_Forall; [done|]. by apply Forall_reverse.
Qed.

Lemma strip_nil_iff s : strip s = [] ↔ Forall (λ c, isspace c = true) s.
Proof.
  rewrite <- drop_while_nil_iff. fold (lstrip s). unfold strip.
  destruct (lstrip_head s) as [->|(c & u & -> & Hc)]; [done|].
  rewrite rstrip_cons by done. done.
Qed.

(** Whitespace around a text is stripped with it. *)
Lemma strip_surrounded pre s post :
  Forall (λ c, isspace c = true) pre → Forall (λ c, isspace c = true) post →
  strip (pre ++ s ++ post) = strip s.
Proof.
  intros Hpre Hpost. unfold strip, lstrip.
  rewrite drop_while_app_Forall by done.
  destruct (decide (drop_while isspace s = [])) as [Hs|Hs].
  - rewrite Hs. apply drop_while_nil_iff in Hs.
    rewrite (proj2 (drop_while_nil_iff isspace (s ++ post))); [done|].
    by apply Forall_app.
  - rewrite drop_while_app_nonempty by done. by apply rstrip_app_space.
Qed.

(** X12: the parser raises the empty-expression error exactly on the inputs
    that consist of whitespace only, the empty input included; the engine
    plays no part in it. *)
Theorem parse_empty_error_iff
    (unicode_word : N → bool) (engine : Engine) (expr_input : str) :
  parse_boolean_expression unicode_word expr_input = Raise (Exn ValueError msg_empty)
  ↔ Forall (λ c, isspace c = true) expr_input.
Proof.
  rewrite <- strip_nil_iff. split.
  - intros Hparse.
    apply parse_boolean_expression_Raise_inv in Hparse
      as [[Hblank _]|(_ & reason & Herr & _)]; [done|].
    apply (f_equal (λ e, head (exn_msg e))) in Herr.
    vm_compute in Herr. discriminate Herr.
  - intros Hblank. unfold parse_boolean_expression.
    by rewrite bool_decide_eq_true_2.
Qed.

(** A tab between two blanks. *)
Lemma parse_empty_error_iff_witness :
  parse_boolean_expression (engine := Boolean.engine) ascii_only [32%N; 9%N; 32%N]
  = Raise (Exn ValueError msg_empty).
Proof.
  apply (parse_empty_error_iff ascii_only Boolean.engine [32%N; 9%N; 32%N]).
  repeat constructor.
Defined.

(** X13: whitespace in front of and behind the expression has no effect on
    the result of the parser, neither on the parsed structures nor on the
    error and its message. *)
Theorem parse_ignores_surrounding_whitespace
    (unicode_word : N → bool) (engine : Engine) (pre expr_input post : str) :
  Forall (λ c, isspace c = true) pre →
  Forall (λ c, isspace c = true) post →
  parse_boolean_expression unicode_word (pre ++ expr_input ++ post)
  = parse_boolean_expression unicode_word expr_input.
Proof.
  intros Hpre Hpost. unfold parse_boolean_expression.
  by rewrite strip_surrounded.
Qed.

(** A tab and blanks around [A*B]. *)
Lemma parse_ignores_surrounding_whitespace_witness :
  parse_boolean_expression (engine := Boolean.engine) ascii_only
    ([9%N; 32%N] ++ py "A*B" ++ py "  ")
  = parse_boolean_expression (engine := Boolean.engine) ascii_only (py "A*B").
Proof.
  apply parse_ignores_surrounding_whitespace; repeat constructor.
Defined.

(** X14: whatever exception the engine raises on the translated text, of
    whatever class, the parser turns it into a [ValueError] whose message
    names the stripped input and carries the text of the engine's
    exception. *)
Theorem parse_wraps_engine_failure
    (unicode_word : N → bool) (engine : Engine) (expr_input : str) (cause : exn) :
  strip expr_input ≠ [] →
  extract_variables unicode_word (substitute_symbols (strip expr_input)) ≠ [] →
  sympify (substitute_symbols (strip expr_input))
    (var_dict_of (symbols (extract_variables unicode_word
                             (substitute_symbols (strip expr_input)))))
  = Raise cause →
  parse_boolean_expression unicode_word expr_input
  = Raise (Exn ValueError (msg_invalid (strip expr_input) (exn_msg cause))).
Proof.
  intros Hne Hvars Hcause. unfold parse_boolean_expression.
  rewrite bool_decide_eq_false_2 by done. unfold try_except.
  rewrite bool_decide_eq_false_2 by done. by rewrite Hcause.
Qed.

(** The engine's failure on an unbalanced parenthesis. *)
Lemma parse_wraps_engine_failure_witness :
  parse_boolean_expression (engine := Boolean.engine) ascii_only (py " (A")
  = Raise (Exn ValueError
             (msg_invalid (py "(A") (exn_msg Boolean.parse_error))).
Proof.
  apply (parse_wraps_engine_failure ascii_only Boolean.engine (py " (A")
           Boolean.parse_error).
  - vm_compute. discriminate.
  - vm_compute. discriminate.
  - vm_compute. reflexivity.
Defined.

Lemma var_dict_of_lookup_from (variables : list Symbol) (d : gmap str Symbol) name :
  foldl (λ d v, <[symbol_name v := v]> d) d variables !! name
  = if decide (Sym name ∈ variables) then Some (Sym name) else d !! name.
Proof.
  revert d. induction variables as [|v variables IH]; intros d; simpl.
  - destruct (decide (Sym name ∈ @nil Symbol)) as [Hin|_]; [by apply elem_of_nil in Hin|done].
  - rewrite IH. destruct (decide (Sym name ∈ variables)) as [Hin|Hnotin].
    + rewrite decide_True; [done|]. by right.
    + destruct v as [v]. cbn [symbol_name].
      destruct (decide (v = name)) as [->|Hne].
      * rewrite lookup_insert_eq, decide_True; [done|]. by left.
      * rewrite lookup_insert_ne by done. rewrite decide_False; [done|].
        intros [[= ?]|?]%elem_of_cons; done.
Qed.

Global Instance Sym_inj : Inj (=) (=) Sym.
Proof. by intros x y [= ->]. Qed.

(** X15: after a successful parse the symbols are in one-to-one
    correspondence with the extracted names: one symbol per name, in the
    same order, pairwise distinct; and the dictionary of locals handed to
    the engine binds each extracted name to its symbol and binds no other
    name. *)
Theorem parse_locals
    (unicode_word : N → bool) (engine : Engine) (expr_input : str)
    (e : Expr) (variables : list Symbol) (vars_names : list str) :
  parse_boolean_expression unicode_word expr_input = Ok (e, variables, vars_names) →
  symbol_name <$> variables = vars_names
  ∧ NoDup variables
  ∧ vars_names ≠ []
  ∧ (∀ name, var_dict_of variables !! name
             = if decide (name ∈ vars_names) then Some (Sym name) else None)
  ∧ sympify (substitute_symbols (strip expr_input)) (var_dict_of variables) = Ok e.
Proof.
  intros Hparse.
  apply parse_boolean_expression_Ok in Hparse as (_ & Hnames & Hne & -> & Hs).
  split.
  { unfold symbols. rewrite <- list_fmap_compose. apply list_fmap_id. }
  split.
  { unfold symbols. apply NoDup_fmap_2; [apply _|].
    rewrite Hnames. apply NoDup_sorted_set. }
  split; [done|]. split; [|done].
  intros name. unfold var_dict_of. rewrite var_dict_of_lookup_from, lookup_empty.
  unfold symbols. destruct (decide (name ∈ vars_names)) as [Hin|Hnotin].
  - rewrite decide_True; [done|]. by apply list_elem_of_fmap_2.
  - rewrite decide_False; [done|].
    intros (n & [= ->] & Hn)%list_elem_of_fmap. done.
Qed.

(** The locals of [B*A]. *)
Lemma parse_locals_witness :
  var_dict_of [sym_A; sym_B] !! py "B" = Some sym_B
  ∧ var_dict_of [sym_A; sym_B] !! py "C" = None.
Proof.
  destruct (parse_locals ascii_only Boolean.engine (py "B*A")
              (Boolean.BAnd (Boolean.BVar sym_B) (Boolean.BVar sym_A))
              [sym_A; sym_B] [py "A"; py "B"])
    as (_ & _ & _ & Hlocals & _).
  - vm_compute. reflexivity.
  - split; rewrite Hlocals; vm_compute; reflexivity.
Defined.

Lemma translate_char_idemp c : translate_char (translate_char c) = translate_char c.
Proof.
  unfold translate_char, NOT_SIGN, LOGICAL_OR.
  destruct (N.eqb_spec c 172) as [->|?]; [reflexivity|].
  destruct (N.eqb_spec c 42) as [->|?]; [reflexivity|].
  destruct (N.eqb_spec c 94) as [->|?]; [reflexivity|].
  destruct (N.eqb_spec c 43) as [->|?]; [reflexivity|].
  destruct (N.eqb_spec c 8744) as [->|?]; [reflexivity|].
  cbn [orb].
  destruct (N.eqb_spec c 172); [done|]. destruct (N.eqb_spec c 42); [done|].
  destruct (N.eqb_spec c 94); [done|]. destruct (N.eqb_spec c 43); [done|].
  destruct (N.eqb_spec c 8744); done.
Qed.

Lemma translate_char_no_symbol c :
  translate_char c ∉ [NOT_SIGN; 42%N; 94%N; 43%N; LOGICAL_OR].
Proof.
  unfold translate_char, NOT_SIGN, LOGICAL_OR.
  rewrite !not_elem_of_cons.
  destruct (N.eqb_spec c 172) as [->|?];
    [repeat split; try apply not_elem_of_nil; lia|].
  destruct (N.eqb_spec c 42) as [->|?];
    [repeat split; try apply not_elem_of_nil; cbn; lia|].
  destruct (N.eqb_spec c 94) as [->|?];
    [repeat split; try apply not_elem_of_nil; cbn; lia|].
  destruct (N.eqb_spec c 43) as [->|?];
    [repeat split; try apply not_elem_of_nil; cbn; lia|].
  destruct (N.eqb_spec c 8744) as [->|?];
    [repeat split; try apply not_elem_of_nil; cbn; lia|].
  cbn [orb]. repeat split; try apply not_elem_of_nil; done.
Qed.

Lemma translate_char_id c :
  c ∉ [NOT_SIGN; 42%N; 94%N; 43%N; LOGICAL_OR] → translate_char c = c.
Proof.
  unfold translate_char, NOT_SIGN, LOGICAL_OR.
  rewrite !not_elem_of_cons. intros (? & ? & ? & ? & ? & _).
  destruct (N.eqb_spec c 172); [done|]. destruct (N.eqb_spec c 42); [done|].
  destruct (N.eqb_spec c 94); [done|]. destruct (N.eqb_spec c 43); [done|].
  destruct (N.eqb_spec c 8744); done.
Qed.

(** X16: the symbol substitution keeps the length of the text, leaves none
    of the five user symbols behind, changes nothing in a text that has
    none of them, and applying it twice is the same as applying it once. *)
Theorem substitute_symbols_properties (s : str) :
  length (substitute_symbols s) = length s
  ∧ Forall (λ c, c ∉ [NOT_SIGN; 42%N; 94%N; 43%N; LOGICAL_OR]) (substitute_symbols s)
  ∧ (Forall (λ c, c ∉ [NOT_SIGN; 42%N; 94%N; 43%N; LOGICAL_OR]) s →
     substitute_symbols s = s)
  ∧ substitute_symbols (substitute_symbols s) = substitute_symbols s.
Proof.
  rewrite !substitute_symbols_fmap. split; [apply length_fmap|]. split.
  { apply Forall_fmap, Forall_forall. intros c _. apply translate_char_no_symbol. }
  split.
  - intros Hnone. rewrite <- (list_fmap_id s) at 2.
    apply Forall_fmap_ext_1. eapply Forall_impl; [exact Hnone|].
    intros c Hc. by apply translate_char_id.
  - rewrite <- list_fmap_compose. apply list_fmap_ext. intros _ c _.
    apply translate_char_idemp.
Qed.

(** A text in the engine's own notation is left alone. *)
Lemma substitute_symbols_properties_witness :
  substitute_symbols (py "~A|(B&C)") = py "~A|(B&C)".
Proof.
  destruct (substitute_symbols_properties (py "~A|(B&C)")) as (_ & _ & Hid & _).
  apply Hid. apply (bool_decide_unpack _). vm_compute. exact I.
Defined.

Lemma contains_trans x u s : contains x u → contains u s → contains x s.
Proof.
  intros (a & b & ->) (a' & b' & ->). exists (a' ++ a), (b ++ b').
  by rewrite <- !app_assoc.
Qed.

Lemma strip_contains s : contains (strip s) s.
Proof.
  unfold strip, rstrip, lstrip.
  exists (take_while isspace s),
         (reverse (take_while isspace (reverse (drop_while isspace s)))).
  rewrite <- reverse_app, take_drop_while, reverse_involutive.
  by rewrite take_drop_while.
Qed.

Lemma word_runs_from_contains unicode_word cur s x :
  x ∈ word_runs_from unicode_word cur s → contains x (cur ++ s).
Proof.
  revert cur. induction s as [|c rest IH]; intros cur; cbn [word_runs_from].
  - unfold flush_run. case_bool_decide; [by intros ?%elem_of_nil|].
    intros ->%list_elem_of_singleton. exists [], []. by rewrite !app_nil_r.
  - destruct (is_word unicode_word c).
    + intros Hx. apply IH in Hx. by rewrite <- app_assoc in Hx.
    + intros [Hx|Hx]%elem_of_app.
      * unfold flush_run in Hx. case_bool_decide; [by apply elem_of_nil in Hx|].
        apply list_elem_of_singleton in Hx as ->. by exists [], (c :: rest).
      * apply IH in Hx as (a & b & Hab). simpl in Hab.
        exists (cur ++ c :: a), b. rewrite Hab. by rewrite <- app_assoc.
Qed.

Lemma translate_char_ident c :
  ident_char (translate_char c) = true → translate_char c = c.
Proof.
  unfold translate_char, NOT_SIGN, LOGICAL_OR.
  destruct (N.eqb_spec c 172) as [->|?]; [by vm_compute|].
  destruct (N.eqb_spec c 42) as [->|?]; [by vm_compute|].
  destruct (N.eqb_spec c 94) as [->|?]; [by vm_compute|].
  destruct (N.eqb_spec c 43) as [->|?]; [by vm_compute|].
  destruct (N.eqb_spec c 8744) as [->|?]; [by vm_compute|].
  done.
Qed.

Lemma is_identifier_chars x :
  is_identifier x = true → Forall (λ c, ident_char c = true) x.
Proof.
  destruct x as [|c r]; [done|]. simpl.
  intros [Hc Hr]%andb_true_iff. constructor; [by apply ident_start_char|].
  apply Forall_forall. intros d Hd. rewrite forallb_forall in Hr.
  apply Hr. by apply list_elem_of_In.
Qed.

(** An identifier found in the translated text stands at the same place in
    the text before translation. *)
Lemma contains_before_translation x t :
  Forall (λ c, ident_char c = true) x →
  contains x (translate_char <$> t) → contains x t.
Proof.
  intros Hx (a & b & Hab).
  apply fmap_app_inv in Hab as (l1 & l23 & -> & Hxb & ->).
  symmetry in Hxb. apply fmap_app_inv in Hxb as (l2 & l3 & -> & -> & ->).
  exists l1, l3. do 2 f_equal. symmetry.
  transitivity (id <$> l2); [|apply list_fmap_id]. apply Forall_fmap_ext_1.
  apply Forall_fmap in Hx. eapply Forall_impl; [exact Hx|].
  intros c Hc. by apply translate_char_ident.
Qed.

(** X17: every variable name returned by a successful parse is an
    identifier (a letter or underscore followed by letters, digits and
    underscores) and occurs, character for character, in the text the
    parser was given. *)
Theorem variables_occur_in_input
    (unicode_word : N → bool) (engine : Engine) (expr_input : str)
    (e : Expr) (variables : list Symbol) (vars_names : list str) :
  parse_boolean_expression unicode_word expr_input = Ok (e, variables, vars_names) →
  Forall (λ name, is_identifier name = true ∧ contains name expr_input) vars_names.
Proof.
  intros Hparse.
  apply parse_boolean_expression_Ok in Hparse as (_ & -> & _).
  apply Forall_forall. intros name Hname.
  unfold extract_variables in Hname.
  rewrite elem_of_sorted_set, findall_word_runs, list_elem_of_In, filter_In
    in Hname.
  destruct Hname as [Hrun Hid]. split; [done|].
  apply list_elem_of_In, word_runs_from_contains in Hrun. cbn [app] in Hrun.
  rewrite substitute_symbols_fmap in Hrun.
  eapply contains_trans; [|apply strip_contains].
  apply contains_before_translation; [|done]. by apply is_identifier_chars.
Qed.

(** The names of [x_1 * y2]. *)
Lemma variables_occur_in_input_witness :
  contains (py "x_1") (py " x_1*y2") ∧ contains (py "y2") (py " x_1*y2").
Proof.
  pose proof (variables_occur_in_input ascii_only Boolean.engine (py " x_1*y2")
                (Boolean.BAnd (Boolean.BVar (Sym (py "x_1")))
                   (Boolean.BVar (Sym (py "y2"))))
                [Sym (py "x_1"); Sym (py "y2")] [py "x_1"; py "y2"]) as Hall.
  assert (parse_boolean_expression (engine := Boolean.engine) ascii_only (py " x_1*y2")
          = Ok (Boolean.BAnd (Boolean.BVar (Sym (py "x_1")))
                  (Boolean.BVar (Sym (py "y2"))),
                [Sym (py "x_1"); Sym (py "y2")], [py "x_1"; py "y2"])) as Hparse
    by (vm_compute; reflexivity).
  specialize (Hall Hparse).
  apply Forall_cons in Hall as [[_ H1] Hall].
  apply Forall_cons in Hall as [[_ H2] _].
  split; [exact H1 | exact H2].
Defined.

(** * Further properties of the enumerator *)

Lemma NoDup_product_bits n : NoDup (product (replicate n [0%Z; 1%Z])).
Proof.
  induction n as [|n IH]; [apply NoDup_singleton|].
  rewrite product_bits_S. apply NoDup_app. split; [|split].
  - apply NoDup_fmap_2; [|done]. by intros t1 t2 [= ->].
  - intros t (t1 & -> & _)%list_elem_of_fmap (t2 & [=] & _)%list_elem_of_fmap.
  - apply NoDup_fmap_2; [|done]. by intros t1 t2 [= ->].
Qed.

Lemma elem_of_product_bits_2 n values :
  length values = n → Forall (λ v, v = 0%Z ∨ v = 1%Z) values →
  values ∈ product (replicate n [0%Z; 1%Z]).
Proof.
  revert values. induction n as [|n IH]; intros values Hlen Hbits.
  - destruct values; [|done]. by apply list_elem_of_singleton.
  - destruct values as [|v values]; [done|].
    apply Forall_cons in Hbits as [Hv Hbits].
    rewrite product_bits_S, elem_of_app.
    destruct Hv as [-> | ->]; [left|right];
      apply list_elem_of_fmap_2; apply IH; simpl in Hlen; (lia || done).
Qed.

(** X18: a returned table is exhaustive and free of repetition: every
    assignment of 0 and 1 to the N variables is the assignment of exactly
    one row, the one whose index has these values as its binary digits. *)
Theorem generate_truth_table_exhaustive
    (engine : Engine) (e : Expr) (variables : list Symbol)
    (rows : list (list str)) (values : list Z) :
  generate_truth_table e variables = Ok rows →
  length values = length variables →
  Forall (λ v, v = 0%Z ∨ v = 1%Z) values →
  ∃ i,
    i < 2 ^ length variables
    ∧ binary_digits (length variables) i = values
    ∧ (∀ j, j < 2 ^ length variables →
            binary_digits (length variables) j = values → j = i)
    ∧ ∃ func_val,
        rows !! i
        = Some ([str_of_int (Z.of_nat i)] ++ (str_of_int <$> values) ++ [func_val]).
Proof.
  intros Hgen Hlen Hbits.
  pose proof (elem_of_product_bits_2 _ _ Hlen Hbits) as Hin.
  apply list_elem_of_lookup_1 in Hin as [i Hi].
  pose proof (lookup_lt_Some _ _ _ Hi) as Hlt. rewrite length_product_bits in Hlt.
  pose proof Hi as Hdigits. rewrite lookup_product_bits in Hdigits by done.
  injection Hdigits as Hdigits.
  exists i. split; [done|]. split; [done|]. split.
  - intros j Hj Hjv.
    eapply NoDup_lookup; [apply NoDup_product_bits| |exact Hi].
    rewrite lookup_product_bits by done. by rewrite Hjv.
  - apply generate_truth_table_rows in Hgen as [_ Hrow].
    destruct (Hrow i Hlt) as (row & Hlookup & Hok).
    apply table_row_Ok in Hok as (e' & b & _ & _ & ->).
    rewrite Hdigits in Hlookup. by eexists.
Qed.

(** The assignment A = 1, B = 0 is that of row 2. *)
Lemma generate_truth_table_exhaustive_witness :
  ∃ i func_val,
    [[py "0"; py "0"; py "0"; py "0"]; [py "1"; py "0"; py "1"; py "0"];
     [py "2"; py "1"; py "0"; py "0"]; [py "3"; py "1"; py "1"; py "1"]] !! i
    = Some ([str_of_int (Z.of_nat i)] ++ [py "1"; py "0"] ++ [func_val]).
Proof.
  destruct (generate_truth_table_exhaustive Boolean.engine A_and_B [sym_A; sym_B]
              [[py "0"; py "0"; py "0"; py "0"]; [py "1"; py "0"; py "1"; py "0"];
               [py "2"; py "1"; py "0"; py "0"]; [py "3"; py "1"; py "1"; py "1"]]
              [1%Z; 0%Z])
    as (i & _ & _ & _ & func_val & Hrow).
  - vm_compute. reflexivity.
  - reflexivity.
  - repeat (apply Forall_cons_2; [lia|]). apply Forall_nil_2.
  - exists i, func_val. exact Hrow.
Defined.

Lemma table_loop_app {engine : Engine} e variables items1 items2 acc :
  table_loop e variables (items1 ++ items2) acc
  = table_loop e variables items1 acc ≫= table_loop e variables items2.
Proof.
  revert acc. induction items1 as [|[i values] items1 IH]; intros acc; [done|].
  cbn [app table_loop]. destruct (table_row e variables i values); [|done].
  rewrite !bind_Ok_l. apply IH.
Qed.

Lemma table_loop_Raise {engine : Engine} e variables items acc err :
  table_loop e variables items acc = Raise err →
  ∃ done_items item rest,
    items = done_items ++ item :: rest
    ∧ Forall (λ item, ∃ row, table_row e variables item.1 item.2 = Ok row) done_items
    ∧ table_row e variables item.1 item.2 = Raise err.
Proof.
  revert acc. induction items as [|[i values] items IH]; intros acc; [done|].
  cbn [table_loop]. destruct (table_row e variables i values) as [row|err'] eqn:Hrow.
  - rewrite bind_Ok_l. intros Hloop.
    apply IH in Hloop as (done_items & item & rest & -> & Hdone & Hitem).
    exists ((i, values) :: done_items), item, rest.
    split; [done|]. split; [|done]. constructor; [by exists row|done].
  - intros [= <-]. exists [], (i, values), items. split; [done|]. by split.
Qed.

Lemma lookup_items n i :
  i < 2 ^ n →
  enumerate (product (replicate n [0%Z; 1%Z])) !! i = Some (i, binary_digits n i).
Proof. intros Hi. by rewrite lookup_enumerate, lookup_product_bits. Qed.

(** X19: [generate_truth_table] raises exactly when the evaluation of some
    row raises, and then with the exception of the first such row in index
    order; the rows built before it are dropped, no partial table is
    returned. *)
Theorem generate_truth_table_first_error
    (engine : Engine) (e : Expr) (variables : list Symbol) (err : exn) :
  generate_truth_table e variables = Raise err
  ↔ ∃ i,
      i < 2 ^ length variables
      ∧ table_row e variables i (binary_digits (length variables) i) = Raise err
      ∧ ∀ j, j < i →
          ∃ row, table_row e variables j (binary_digits (length variables) j) = Ok row.
Proof.
  unfold generate_truth_table.
  set (items := enumerate (product (replicate (length variables) [0%Z; 1%Z]))).
  assert (length items = 2 ^ length variables) as Hlen
    by (unfold items; by rewrite length_enumerate, length_product_bits).
  split.
  - intros Hloop.
    apply table_loop_Raise in Hloop as (done_items & item & rest & Hitems & Hdone & Hitem).
    exists (length done_items).
    assert (length done_items < 2 ^ length variables) as Hi.
    { rewrite <- Hlen, Hitems, length_app. simpl. lia. }
    split; [done|].
    assert (items !! length done_items = Some item) as Hlookup
      by (rewrite Hitems; by apply list_lookup_middle).
    unfold items in Hlookup. rewrite lookup_items in Hlookup by done.
    injection Hlookup as <-. split; [done|].
    intros j Hj.
    destruct (lookup_lt_is_Some_2 done_items j Hj) as [item' Hj'].
    eapply Forall_lookup in Hdone; [|done]. destruct Hdone as [row Hrow].
    assert (items !! j = Some item') as Hlookup
      by (rewrite Hitems; by apply lookup_app_l_Some).
    unfold items in Hlookup. rewrite lookup_items in Hlookup by lia.
    injection Hlookup as <-. by exists row.
  - intros (i & Hi & Herr & Hbefore).
    rewrite <- (take_drop_middle items i (i, binary_digits (length variables) i))
      by (by apply lookup_items).
    rewrite table_loop_app.
    destruct (table_loop_total e variables (take i items) []) as [rows1 ->].
    + apply Forall_lookup. intros j item Hj.
      apply lookup_take_Some in Hj as [Hj Hji].
      unfold items in Hj. rewrite lookup_items in Hj by lia.
      injection Hj as <-. by apply Hbefore.
    + rewrite bind_Ok_l. cbn [table_loop]. by rewrite Herr.
Qed.

(** The table of an expression that cannot be evaluated when [A] is 1:
    row 0 is computed, row 1 raises, and nothing is returned. *)
Lemma generate_truth_table_first_error_witness :
  generate_truth_table (engine := partial_engine) () [sym_A] = Raise evaluation_error.
Proof.
  apply (generate_truth_table_first_error partial_engine () [sym_A] evaluation_error).
  exists 1. split; [simpl; lia|]. split; [vm_compute; reflexivity|].
  intros j Hj. replace j with 0 by lia. eexists. vm_compute. reflexivity.
Defined.

(** X20: the dictionary of an assignment binds the variables of the list
    and nothing else, and when a variable occurs more than once in the list
    it is the value at its last occurrence that counts. *)
Theorem val_dict_of_last_wins
    (variables : list Symbol) (values : list Z) (x : Symbol) :
  length values = length variables →
  (x ∉ variables → val_dict_of variables values !! x = None)
  ∧ ∀ k v,
      variables !! k = Some x → x ∉ drop (S k) variables → values !! k = Some v →
      val_dict_of variables values !! x = Some v.
Proof.
  intros Hlen. unfold val_dict_of. split.
  - intros Hx. rewrite foldl_insert_lookup_notin, lookup_empty; [done|].
    by rewrite fst_zip by lia.
  - intros k v Hk Hlast Hv.
    rewrite <- (take_drop_middle variables k x Hk).
    rewrite <- (take_drop_middle values k v Hv).
    pose proof (lookup_lt_Some _ _ _ Hk) as Hlt.
    rewrite zip_with_app by (rewrite !length_take; lia).
    cbn [zip_with]. rewrite foldl_app. cbn [foldl fst snd].
    rewrite foldl_insert_lookup_notin.
    + apply lookup_insert_eq.
    + rewrite fst_zip; [done|]. rewrite !length_drop. lia.
Qed.

(** The variable [A] listed twice: the second value decides. *)
Lemma val_dict_of_last_wins_witness :
  val_dict_of [sym_A; sym_B; sym_A] [0%Z; 1%Z; 1%Z] !! sym_A = Some 1%Z.
Proof.
  destruct (val_dict_of_last_wins [sym_A; sym_B; sym_A] [0%Z; 1%Z; 1%Z] sym_A)
    as [_ Hlast]; [reflexivity|].
  apply (Hlast 2); [reflexivity| |reflexivity].
  apply not_elem_of_nil.
Defined.
